(** * newt: package store, sysinit generator and syscfg listing

    A shallow embedding of three source files of the newt build tool:
    - [pkg]      the local package store (load, save, hash, discovery),
    - [sysinit]  the stage-ordered initialisation code generator,
    - [cli]      the syscfg listing and yaml export of the target commands.

    Go strings and byte slices are Rocq [string]s (sequences of bytes), Go
    [int]s are [Z], Go maps are [gmap]s, and the [error] result of a function
    is an [option] (with [None] for [nil]). *)

From Stdlib Require Import Ascii.
From stdpp Require Import gmap strings list sorting pretty.

Set Warnings "-register-all".

(** ** Text and ordering helpers *)

(** The line feed that Go writes as the escape [\n]. *)
Definition nl : string := String (ascii_of_nat 10) EmptyString.

(** An [io.Writer] or [bytes.Buffer] is the text written so far;
    [fmt.Fprintf] appends the formatted text. *)
Definition Fprintf (w : string) (text : string) : string := w +:+ text.

(** The verb [%d]. *)
Definition fmt_d (n : Z) : string := pretty n.

(** The texts of a list, one after the other. *)
Definition concat_str (l : list string) : string := foldr String.append "" l.

(** [strings.HasPrefix]. *)
Definition HasPrefix (s p : string) : bool := String.prefix p s.

(** [sort.Ints] and [sort.Strings]: the ascending rearrangement of the slice
    (Go orders strings bytewise, which is [String.le]).
    The algorithm of the Go library is not part of this repository; any
    correct sort returns the same slice, here computed by merge sort. *)
Definition sort_Ints (l : list Z) : list Z := merge_sort Z.le l.
Definition sort_Strings (l : list string) : list string := merge_sort String.le l.

(** Go leaves the order in which [range] visits a map unspecified, and the
    order may change from one loop to the next.  A [RangeOrder] is the choice
    made for one loop: it is valid when it enumerates the entries of the map,
    each once. *)
Definition RangeOrder (K V : Type) `{Countable K} : Type :=
  gmap K V → list (K * V).

Definition valid_order `{Countable K} {V} (o : RangeOrder K V) : Prop :=
  ∀ m, o m ≡ₚ map_to_list m.

(** The order of stdpp's [map_to_list], and its reverse. *)
Definition range_fwd `{Countable K} {V} : RangeOrder K V := map_to_list.
Definition range_rev `{Countable K} {V} : RangeOrder K V :=
  λ m, reverse (map_to_list m).

(** ** The file store seen by the writers

    [EnsureWritten] and [Save] address files by path strings.  The store maps
    a path to the node found there; [frozen] collects the paths that cannot be
    created or changed (a read-only location, a missing permission). *)
Module disk.

Inductive Node : Type :=
  | File (data : string) (readable : bool)
  | Dir.

Inductive Errno : Type := ENOENT | EACCES | EISDIR | ENOTDIR.

Record FS : Type := mkFS {
    nodes : gmap string Node;
    frozen : gset string;
  }.

Definition setNode (fs : FS) (path : string) (n : Node) : FS :=
    {| nodes := <[path := n]> (nodes fs); frozen := frozen fs |}.

  (** [ioutil.ReadFile] *)
Definition ReadFile (fs : FS) (path : string) : Errno + string :=
    match nodes fs !! path with
    | None => inl ENOENT
    | Some Dir => inl EISDIR
    | Some (File data true) => inr data
    | Some (File _ false) => inl EACCES
    end.

  (** [os.IsNotExist] *)
Definition IsNotExist (e : Errno) : bool :=
    match e with ENOENT => true | _ => false end.

  (** [os.MkdirAll]: nothing to do for a directory, an error for a file,
      otherwise the directory is created. *)
Definition MkdirAll (fs : FS) (path : string) : FS * option Errno :=
    match nodes fs !! path with
    | Some Dir => (fs, None)
    | Some (File _ _) => (fs, Some ENOTDIR)
    | None =>
        if decide (path ∈ frozen fs) then (fs, Some EACCES)
        else (setNode fs path Dir, None)
    end.

  (** [ioutil.WriteFile]: create or truncate, then write all of [data]. *)
Definition WriteFile (fs : FS) (path data : string) : FS * option Errno :=
    match nodes fs !! path with
    | Some Dir => (fs, Some EISDIR)
    | Some (File _ r) =>
        if decide (path ∈ frozen fs) then (fs, Some EACCES)
        else (setNode fs path (File data r), None)
    | None =>
        if decide (path ∈ frozen fs) then (fs, Some EACCES)
        else (setNode fs path (File data true), None)
    end.

  (** [os.Create]: create or truncate to the empty file. *)
Definition Create (fs : FS) (path : string) : FS * option Errno :=
    WriteFile fs path "".

  (** [File.WriteString] on the file opened at [path]: the bytes are
      appended; the callers here ignore its result. *)
Definition WriteString (fs : FS) (path s : string) : FS :=
    match nodes fs !! path with
    | Some (File data r) => setNode fs path (File (data +:+ s) r)
    | _ => fs
    end.

End disk.

(** [util.NewNewtError(err.Error())]: the error of the tool, carrying the
    cause met on the file store or in a descriptor. *)
Inductive NewtError : Type :=
| FsError (e : disk.Errno)
| DescError (msg : string).

(** ** The directory tree seen by discovery and hashing

    A directory holds its entries in the order in which [ioutil.ReadDir] and
    [filepath.Walk] list them (sorted by file name).  The flag tells whether
    the node can be read. *)
Module tree.

Inductive Node : Type :=
  | File (data : string) (readable : bool)
  | Dir (entries : list (string * Node)) (readable : bool).

Definition IsDir (n : Node) : bool :=
    match n with Dir _ _ => true | File _ _ => false end.

  (** [ioutil.ReadDir] *)
Definition ReadDir (n : Node) : disk.Errno + list (string * Node) :=
    match n with
    | File _ _ => inl disk.ENOTDIR
    | Dir _ false => inl disk.EACCES
    | Dir entries true => inr entries
    end.

  (** [ioutil.ReadFile] *)
Definition ReadFile (n : Node) : disk.Errno + string :=
    match n with
    | File data true => inr data
    | File _ false => inl disk.EACCES
    | Dir _ _ => inl disk.EISDIR
    end.

  (** The entry called [name] of a directory listing. *)
Fixpoint lookup (entries : list (string * Node)) (name : string) : option Node :=
    match entries with
    | [] => None
    | (n, sub) :: rest => if decide (n = name) then Some sub else lookup rest name
    end.

  (** What a path resolves to: the base name that [os.Lstat] reports and the
      node, or nothing when the path does not exist. *)
Definition Mount : Type := string → option (string * Node).

End tree.

(** A Go function that either returns or panics. *)
Inductive outcome (A : Type) : Type :=
| Returned (a : A)
| Panicked.
Arguments Returned {A} a.
Arguments Panicked {A}.

(** ** Package [pkg]: the local package store *)
Module pkg.

  (** [PackageType] is a Go [int]. *)
Definition PackageType : Type := Z.

  (** The descriptor file of a package directory (the target commands name it
      in their comments; [Load] strips its [.yml] suffix). *)
Definition PACKAGE_FILE_NAME : string := "pkg.yml".

  (** The parsed descriptor: [viper] maps a key to a scalar or a sequence. *)
Inductive Value : Type :=
  | VString (s : string)
  | VSlice (l : list string).

Definition GetString (v : gmap string Value) (key : string) : string :=
    match v !! key with Some (VString s) => s | _ => "" end.

  (** Only sequences are modelled for [GetStringSlice]; nothing below reads
      the keywords. *)
Definition GetStringSlice (v : gmap string Value) (key : string) : list string :=
    match v !! key with Some (VSlice l) => l | _ => [] end.

Record Repo : Type := mkRepo { repo_Name : string }.

Record PackageDesc : Type := mkDesc {
    Author : string;
    Homepage : string;
    Description : string;
    Keywords : list string;
  }.

  (** The version type is declared outside these files; this code observes it
      only through [String()], which is what the model keeps. *)
Record Version : Type := mkVersion { Version_String : string }.

  (** [InitFuncs] is the map from entry point to stage that the generator
      reads through [p.Init()]. *)
Record LocalPackage : Type := mkPkg {
    repo : Repo;
    name : string;
    basePath : string;
    packageType : PackageType;
    desc : PackageDesc;
    vers : Version;
    Viper : option (gmap string Value);
    InitFuncs : gmap string Z;
  }.

Definition Name (p : LocalPackage) : string := name p.
Definition BasePath (p : LocalPackage) : string := basePath p.
Definition Type_ (p : LocalPackage) : PackageType := packageType p.

  (** The zero value [&LocalPackage{}]. *)
Definition zeroPackage : LocalPackage :=
    {| repo := mkRepo ""; name := ""; basePath := ""; packageType := 0%Z;
       desc := mkDesc "" "" "" []; vers := mkVersion ""; Viper := None;
       InitFuncs := ∅ |}.

Definition PackageHashIgnoreDirs : gmap string bool :=
    <["obj" := true]> (<["bin" := true]> (<["." := true]> ∅)).

Definition LocalPackageSpecialNames : gmap string bool :=
    <["src" := true]> (<["include" := true]> (<["bin" := true]> ∅)).

  (** [m[key]] on a [map[string]bool]: false when the key is absent. *)
Definition flag (m : gmap string bool) (key : string) : bool :=
    default false (m !! key).

Definition LocalPackageSpecialName (dirName : string) : bool :=
    bool_decide (is_Some (LocalPackageSpecialNames !! dirName)).

(** Packages compared by name. *)
Definition name_le (p q : LocalPackage) : Prop := String.le (name p) (name q).

Global Instance name_le_dec : RelDecision name_le.
Proof. intros p q. unfold name_le. apply _. Defined.

(** Modelled from the spec: [pkg.SortLclPkgs] is declared outside these
    files; the prototypes are "sorted by owning-package name". *)
Definition SortLclPkgs (pkgs : list LocalPackage) : list LocalPackage :=
  merge_sort name_le pkgs.

Section store.
    (** Declared outside these files: the table of type names and the default
        type, the yaml reader behind [util.ReadConfig], the version parser,
        [filepath.Clean], and the digest [sha1] rendered by [%x]. *)
Variable PackageTypeNames : gmap Z string.
Variable PACKAGE_TYPE_LIB : PackageType.
Variable ReadYaml : string → option (gmap string Value).
Variable LoadVersion : string → NewtError + Version.
Variable filepath_Clean : string → string.
Variable sha1_hex : string → string.

    (** The order taken by the [range] over [PackageTypeNames] in [Load]. *)
Variable typeOrder : RangeOrder Z string.

    (** *** Hash *)

Inductive WalkErr : Type :=
    | SkipDir
    | WalkFail (e : disk.Errno).

Definition isSkipDir (e : WalkErr) : bool :=
      match e with SkipDir => true | WalkFail _ => false end.

    (** [filepath.Walk]'s recursion.  The walk function receives the base
        name and the node (the [os.FileInfo]), the error of a failed listing,
        and threads its state [S]; the path argument of the Go function only
        serves to read the file whose node the walk holds. *)
Section walk.
Context {S : Type}.
Variable walkFn : string → tree.Node → option disk.Errno → S → S * option WalkErr.

Fixpoint walk (name : string) (info : tree.Node) (s : S) {struct info}
        : S * option WalkErr :=
        match walkFn name info None s with
        | (s, Some err) =>
            if tree.IsDir info && isSkipDir err then (s, None) else (s, Some err)
        | (s, None) =>
            match info with
            | tree.File _ _ => (s, None)
            | tree.Dir _ false => walkFn name info (Some disk.EACCES) s
            | tree.Dir names true =>
                (fix loop (names : list (string * tree.Node)) (s : S) :=
                   match names with
                   | [] => (s, None)
                   | (n, fileInfo) :: rest =>
                       match walk n fileInfo s with
                       | (s, Some err) =>
                           if negb (tree.IsDir fileInfo) || negb (isSkipDir err)
                           then (s, Some err)
                           else loop rest s
                       | (s, None) => loop rest s
                       end
                   end) names s
            end
        end.
End walk.

    (** The closure that [Hash] hands to [filepath.Walk]; the state is the
        sequence of bytes written to the digest so far. *)
Definition hashFn (name : string) (info : tree.Node) (err : option disk.Errno)
        (hash : string) : string * option WalkErr :=
      if flag PackageHashIgnoreDirs name then (hash, Some SkipDir)
      else if tree.IsDir info then (hash +:+ name, None)
      else match tree.ReadFile info with
           | inl e => (hash, Some (WalkFail e))
           | inr contents => (hash +:+ contents, None)
           end.

    (** The bytes that [Hash] feeds to the digest, with the error of the walk.
        A base path that does not exist makes the closure dereference a nil
        [FileInfo]. *)
Definition hashInput (mnt : tree.Mount) (p : LocalPackage)
        : outcome (string * option WalkErr) :=
      match mnt (basePath p) with
      | None => Panicked
      | Some (name, info) => Returned (walk hashFn name info "")
      end.

Definition Hash (mnt : tree.Mount) (p : LocalPackage)
        : outcome (string * option NewtError) :=
      match hashInput mnt p with
      | Panicked => Panicked
      | Returned (_, Some (WalkFail e)) => Returned ("", Some (FsError e))
      | Returned (written, _) => Returned (sha1_hex written, None)
      end.

(** *** Load *)

Definition readDesc (v : gmap string Value) : PackageDesc :=
  {| Author := GetString v "pkg.author";
     Homepage := GetString v "pkg.homepage";
     Description := GetString v "pkg.description";
     Keywords := GetStringSlice v "pkg.keywords" |}.

(** [Init(repo, pkgDir)] of the package store. *)
Definition Init (r : Repo) (pkgDir : string) (p : LocalPackage) : LocalPackage :=
  {| repo := r; name := name p; basePath := filepath_Clean pkgDir +:+ "/";
     packageType := packageType p; desc := desc p; vers := vers p;
     Viper := Viper p; InitFuncs := InitFuncs p |}.

(** [util.ReadConfig(basePath, "pkg")] on the listing of the package
    directory: the descriptor must be a readable file that parses. *)
Definition ReadConfig (dir : tree.Node) : NewtError + gmap string Value :=
  match dir with
  | tree.File _ _ => inl (FsError disk.ENOTDIR)
  | tree.Dir entries _ =>
      match tree.lookup entries PACKAGE_FILE_NAME with
      | None => inl (FsError disk.ENOENT)
      | Some f =>
          match tree.ReadFile f with
          | inl e => inl (FsError e)
          | inr data =>
              match ReadYaml data with
              | None => inl (DescError "unparsable descriptor")
              | Some v => inr v
              end
          end
      end
  end.

(** The loop of [Load] over the type names: the first entry whose name is
    the type string decides, and ends the loop. *)
Fixpoint matchType (typeString : string) (entries : list (Z * string))
    (packageType : PackageType) : PackageType :=
  match entries with
  | [] => packageType
  | (t, n) :: rest =>
      if decide (typeString = n) then t else matchType typeString rest packageType
  end.

(** [Load] updates the package in place and returns the error. *)
Definition Load (dir : tree.Node) (p : LocalPackage) : LocalPackage * option NewtError :=
  match ReadConfig dir with
  | inl err => (p, Some err)
  | inr v =>
      let typeString := GetString v "pkg.type" in
      let packageType :=
        matchType typeString (typeOrder PackageTypeNames) PACKAGE_TYPE_LIB in
      let p1 :=
        {| repo := repo p; name := GetString v "pkg.name"; basePath := basePath p;
           packageType := packageType; desc := desc p; vers := vers p;
           Viper := Some v; InitFuncs := InitFuncs p |} in
      match LoadVersion (GetString v "pkg.vers") with
      | inl err => (p1, Some err)
      | inr ver =>
          ({| repo := repo p1; name := name p1; basePath := basePath p1;
              packageType := pkg.packageType p1; desc := readDesc v; vers := ver;
              Viper := Viper p1; InitFuncs := InitFuncs p1 |}, None)
      end
  end.

Definition LoadLocalPackage (r : Repo) (pkgDir : string) (dir : tree.Node)
    : LocalPackage * option NewtError :=
  Load dir (Init r pkgDir zeroPackage).

(** *** Save *)

Definition typeName (t : PackageType) : string :=
  default "" (PackageTypeNames !! t).

Definition Save (p : LocalPackage) (fs : disk.FS) : disk.FS * option NewtError :=
  let dirpath := BasePath p in
  match disk.MkdirAll fs dirpath with
  | (fs, Some err) => (fs, Some (FsError err))
  | (fs, None) =>
      let filepath := dirpath +:+ "/" +:+ PACKAGE_FILE_NAME in
      match disk.Create fs filepath with
      | (fs, Some err) => (fs, Some (FsError err))
      | (fs, None) =>
          let fs := disk.WriteString fs filepath
                      ("### Package: " +:+ Name p +:+ nl +:+ nl) in
          let fs := disk.WriteString fs filepath
                      ("pkg.name: " +:+ Name p +:+ nl) in
          let fs := disk.WriteString fs filepath
                      ("pkg.vers: " +:+ Version_String (vers p) +:+ nl) in
          let fs := disk.WriteString fs filepath
                      ("pkg.type: " +:+ typeName (Type_ p) +:+ nl) in
          let fs := disk.WriteString fs filepath
                      ("pkg.description: " +:+ Description (desc p) +:+ nl) in
          let fs := disk.WriteString fs filepath
                      ("pkg.author: " +:+ Author (desc p) +:+ nl) in
          let fs := disk.WriteString fs filepath
                      ("pkg.homepage: " +:+ Homepage (desc p) +:+ nl) in
          let fs := disk.WriteString fs filepath
                      ("pkg.repository: " +:+ repo_Name (repo p) +:+ nl) in
          (fs, None)
      end
  end.

(** *** Discovery *)

(** [ReadLocalPackageRecursive] on the directory [dir] found at
    [basePath/pkgName].  The package list is updated in place, so the list
    reached so far is returned with the error. *)
Fixpoint ReadLocalPackageRecursive (r : Repo) (pkgList : gmap string LocalPackage)
    (basePath pkgName : string) (dir : tree.Node) {struct dir}
    : gmap string LocalPackage * option NewtError :=
  match dir with
  | tree.File _ _ => (pkgList, Some (FsError disk.ENOTDIR))
  | tree.Dir _ false => (pkgList, Some (FsError disk.EACCES))
  | tree.Dir dirList true =>
      let walked :=
        (fix loop (ents : list (string * tree.Node))
                  (pkgList : gmap string LocalPackage) :=
           match ents with
           | [] => (pkgList, None)
           | (name, dirEnt) :: rest =>
               if negb (tree.IsDir dirEnt) then loop rest pkgList
               else if LocalPackageSpecialName name || HasPrefix name "."
               then loop rest pkgList
               else
                 match ReadLocalPackageRecursive r pkgList basePath
                         (pkgName +:+ "/" +:+ name) dirEnt with
                 | (pkgList, Some err) => (pkgList, Some err)
                 | (pkgList, None) => loop rest pkgList
                 end
           end) dirList pkgList in
      match walked with
      | (pkgList, Some err) => (pkgList, Some err)
      | (pkgList, None) =>
          match tree.lookup dirList PACKAGE_FILE_NAME with
          | None => (pkgList, None)
          | Some _ =>
              match LoadLocalPackage r (basePath +:+ "/" +:+ pkgName) dir with
              | (_, Some err) => (pkgList, Some err)
              | (p, None) => (<[Name p := p]> pkgList, None)
              end
          end
      end
  end.

(** The loop of [ReadLocalPackages] over the entries of one search
    directory [pkgDir]. *)
Fixpoint readSubDirs (r : Repo) (pkgList : gmap string LocalPackage)
    (pkgDir : string) (dirList : list (string * tree.Node))
    : gmap string LocalPackage * option NewtError :=
  match dirList with
  | [] => (pkgList, None)
  | (name, subDir) :: rest =>
      if HasPrefix name "." || HasPrefix name ".."
      then readSubDirs r pkgList pkgDir rest
      else if negb (tree.IsDir subDir) then readSubDirs r pkgList pkgDir rest
      else
        match ReadLocalPackageRecursive r pkgList pkgDir name subDir with
        | (pkgList, Some err) => (pkgList, Some err)
        | (pkgList, None) => readSubDirs r pkgList pkgDir rest
        end
  end.

Fixpoint readSearchPaths (mnt : tree.Mount) (r : Repo)
    (pkgList : gmap string LocalPackage) (basePath : string)
    (searchPaths : list string) : gmap string LocalPackage * option NewtError :=
  match searchPaths with
  | [] => (pkgList, None)
  | path :: rest =>
      let pkgDir := basePath +:+ "/" +:+ path in
      match mnt pkgDir with
      | None => readSearchPaths mnt r pkgList basePath rest
      | Some (_, node) =>
          match tree.ReadDir node with
          | inl err => (pkgList, Some (FsError err))
          | inr dirList =>
              match readSubDirs r pkgList pkgDir dirList with
              | (pkgList, Some err) => (pkgList, Some err)
              | (pkgList, None) => readSearchPaths mnt r pkgList basePath rest
              end
          end
      end
  end.

(** [ReadLocalPackages] returns the package list, or the error alone. *)
Definition ReadLocalPackages (mnt : tree.Mount) (r : Repo) (basePath : string)
    (searchPaths : list string) : NewtError + gmap string LocalPackage :=
  match readSearchPaths mnt r ∅ basePath searchPaths with
  | (_, Some err) => inl err
  | (pkgList, None) => inr pkgList
  end.

End store.

End pkg.

(** ** Package [sysinit]: the stage-ordered generator *)
Module sysinit.

Record initFunc : Type := mkInitFunc {
  stage : Z;
  name : string;
  pkg : pkg.LocalPackage;
}.

(** The [n]-th [range] loop over a map of entry points takes the order
    [rng n]. *)
Definition Ranges : Type := nat → RangeOrder string Z.

Definition valid_ranges (rng : Ranges) : Prop := ∀ n, valid_order (rng n).

(** [sm[stage] = append(sm[stage], initFunc)] for the entries of one package,
    in the order of the loop. *)
Definition appendInitFunc (p : pkg.LocalPackage)
    (sm : gmap Z (list initFunc)) (entry : string * Z) : gmap Z (list initFunc) :=
  let '(name, stage) := entry in
  <[stage := default [] (sm !! stage) ++ [mkInitFunc stage name p]]> sm.

Fixpoint buildStageMap_from (rng : Ranges) (n : nat)
    (pkgs : list pkg.LocalPackage) (sm : gmap Z (list initFunc))
    : gmap Z (list initFunc) :=
  match pkgs with
  | [] => sm
  | p :: rest =>
      buildStageMap_from rng (S n) rest
        (foldl (appendInitFunc p) sm (rng n (pkg.InitFuncs p)))
  end.

(** The packages are ranged over by the loops numbered [0], [1], ... *)
Definition buildStageMap (rng : Ranges) (pkgs : list pkg.LocalPackage)
    : gmap Z (list initFunc) :=
  buildStageMap_from rng 0 pkgs ∅.

Definition writePrototype (w : string) (entry : string * Z) : string :=
  Fprintf w ("void " +:+ entry.1 +:+ "(void);" +:+ nl).

Fixpoint writePrototypes_from (rng : Ranges) (n : nat)
    (sorted : list pkg.LocalPackage) (w : string) : string :=
  match sorted with
  | [] => w
  | p :: rest =>
      writePrototypes_from rng (S n) rest
        (foldl writePrototype w (rng n (pkg.InitFuncs p)))
  end.

(** The loops of [writePrototypes] are numbered from [n]. *)
Definition writePrototypes (rng : Ranges) (n : nat)
    (pkgs : list pkg.LocalPackage) (w : string) : string :=
  writePrototypes_from rng n (pkg.SortLclPkgs pkgs) w.

Fixpoint writeStage_from (stage : Z) (i : nat) (initFuncs : list initFunc)
    (w : string) : string :=
  match initFuncs with
  | [] => w
  | f :: rest =>
      let w := Fprintf w ("    /* " +:+ fmt_d stage +:+ "." +:+ fmt_d (Z.of_nat i)
                          +:+ ": " +:+ pkg.Name (pkg f) +:+ " */" +:+ nl) in
      let w := Fprintf w ("    " +:+ name f +:+ "();" +:+ nl) in
      writeStage_from stage (S i) rest w
  end.

Definition writeStage (stage : Z) (initFuncs : list initFunc) (w : string) : string :=
  let w := Fprintf w ("    /*** Stage " +:+ fmt_d stage +:+ " */" +:+ nl) in
  writeStage_from stage 0 initFuncs w.

(** The keys of the stage map, sorted.  The keys are collected by a [range]
    loop whose order the sort makes irrelevant. *)
Definition sortedStages (stageMap : gmap Z (list initFunc)) : list Z :=
  sort_Ints ((map_to_list stageMap).*1).

Definition writeStages (stageMap : gmap Z (list initFunc)) (stages : list Z)
    (w : string) : string :=
  foldl (λ w s, writeStage s (default [] (stageMap !! s)) (Fprintf w nl)) w stages.

Section generator.
(** Declared outside these files: the text of [newtutil.GeneratedPreamble]
    (written as it is: it holds no formatting verb) and [filepath.Dir]. *)
Variable GeneratedPreamble : string.
Variable filepath_Dir : string → string.

Definition write (rng : Ranges) (pkgs : list pkg.LocalPackage) (isLoader : bool)
    (w : string) : string :=
  let stageMap := buildStageMap rng pkgs in
  let stages := sortedStages stageMap in
  let w := Fprintf w GeneratedPreamble in
  let w := if isLoader then Fprintf w ("#if SPLIT_LOADER" +:+ nl +:+ nl)
           else Fprintf w ("#if !SPLIT_LOADER" +:+ nl +:+ nl) in
  let w := writePrototypes rng (length pkgs) pkgs w in
  let fnName := if isLoader then "sysinit_loader" else "sysinit_app" in
  let w := Fprintf w nl in
  let w := Fprintf w ("void" +:+ nl +:+ fnName +:+ "(void)" +:+ nl +:+ "{" +:+ nl) in
  let w := writeStages stageMap stages w in
  let w := Fprintf w ("}" +:+ nl +:+ nl) in
  Fprintf w ("#endif" +:+ nl).

Definition writeRequired (fs : disk.FS) (contents path : string)
    : bool * option NewtError :=
  match disk.ReadFile fs path with
  | inl err =>
      if disk.IsNotExist err then (true, None)
      else (true, Some (FsError err))
  | inr oldSrc => (negb (bool_decide (oldSrc = contents)), None)
  end.

(** The part of [EnsureWritten] that follows the generation of the text. *)
Definition ensureWrittenAt (contents path : string) (fs : disk.FS)
    : disk.FS * option NewtError :=
  match writeRequired fs contents path with
  | (_, Some err) => (fs, Some err)
  | (false, None) => (fs, None)
  | (true, None) =>
      match disk.MkdirAll fs (filepath_Dir path) with
      | (fs, Some err) => (fs, Some (FsError err))
      | (fs, None) =>
          match disk.WriteFile fs path contents with
          | (fs, Some err) => (fs, Some (FsError err))
          | (fs, None) => (fs, None)
          end
      end
  end.

Definition sysinitPath (srcDir targetName : string) (isLoader : bool) : string :=
  if isLoader then srcDir +:+ "/" +:+ targetName +:+ "-sysinit-loader.c"
  else srcDir +:+ "/" +:+ targetName +:+ "-sysinit-app.c".

Definition EnsureWritten (rng : Ranges) (pkgs : list pkg.LocalPackage)
    (srcDir targetName : string) (isLoader : bool) (fs : disk.FS)
    : disk.FS * option NewtError :=
  let buf := write rng pkgs isLoader "" in
  ensureWrittenAt buf (sysinitPath srcDir targetName isLoader) fs.

End generator.

End sysinit.

(** ** Package [cli]: the syscfg listing of the target commands *)
Module cli.

(** The types of package [syscfg] as the listing uses them. *)
Record CfgPoint : Type := mkPoint {
  pt_Value : string;
  Source : pkg.LocalPackage;
}.

Record CfgEntry : Type := mkEntry {
  Name : string;
  Description : string;
  Value : string;
  History : list CfgPoint;
}.

Record Cfg : Type := mkCfg {
  Settings : gmap string CfgEntry;
  ErrorText : string;
}.

(** The zero value that a Go map returns for a missing key. *)
Definition zeroPoint : CfgPoint := mkPoint "" pkg.zeroPackage.
Definition zeroEntry : CfgEntry := mkEntry "" "" "" [].

Definition setting (cfg : Cfg) (name : string) : CfgEntry :=
  default zeroEntry (Settings cfg !! name).

(** The terminal is the sequence of texts handed to [util.StatusMessage] at
    the default verbosity, one element for each call. *)
Definition StatusMessage (out : list string) (text : string) : list string :=
  out ++ [text].

Definition printSetting (entry : CfgEntry) (out : list string) : list string :=
  let out := StatusMessage out ("  * Setting: " +:+ Name entry +:+ nl) in
  let out := StatusMessage out ("    * Description: " +:+ Description entry +:+ nl) in
  let out := StatusMessage out ("    * Value: " +:+ Value entry) in
  let out := StatusMessage out nl in
  if bool_decide (1 < length (History entry)) then
    let out := StatusMessage out "    * Overridden: " in
    let out :=
      foldl (λ out pt, StatusMessage out (pkg.Name (Source pt) +:+ ", "))
            out (drop 1 (History entry)) in
    StatusMessage out
      ("default=" +:+ pt_Value (default zeroPoint (History entry !! 0)) +:+ nl)
  else out.

(** The names of the entries, sorted: the order in which a package's settings
    are listed. *)
Definition settingNames (entries : list CfgEntry) : list string :=
  sort_Strings (Name <$> entries).

Definition printPkgCfg (pkgName : string) (cfg : Cfg) (entries : list CfgEntry)
    (out : list string) : list string :=
  let out := StatusMessage out ("* PACKAGE: " +:+ pkgName +:+ nl) in
  foldl (λ out name, printSetting (setting cfg name) out) out (settingNames entries).

(** The keys of the grouping, sorted.  They are collected by a [range] loop
    whose order the sort makes irrelevant. *)
Definition sortedPkgNames (pkgNameEntryMap : gmap string (list CfgEntry)) : list string :=
  sort_Strings ((map_to_list pkgNameEntryMap).*1).

Definition entriesOf (pkgNameEntryMap : gmap string (list CfgEntry))
    (pkgName : string) : list CfgEntry :=
  default [] (pkgNameEntryMap !! pkgName).

Definition yamlPkgCfg (w : string) (pkgName : string) (cfg : Cfg)
    (entries : list CfgEntry) : string :=
  let w := Fprintf w ("    ### " +:+ pkgName +:+ nl) in
  foldl (λ w name,
           Fprintf w ("    " +:+ name +:+ ": '" +:+ Value (setting cfg name)
                              +:+ "'" +:+ nl))
        w (settingNames entries).

Section listing.
(** The order taken by the [range] over the settings in [EntriesByPkg]. *)
Variable settingsOrder : RangeOrder string CfgEntry.

(** The package that contributed the default of an entry. *)
Definition originName (entry : CfgEntry) : string :=
  pkg.Name (Source (default zeroPoint (History entry !! 0))).

(** Modelled from the spec: [syscfg.EntriesByPkg] is declared outside these
    files; "entries must be retrievable grouped by their originating package
    name", the originating package being the source of history[0], "the
    unconditioned default". *)
Definition EntriesByPkg (cfg : Cfg) : gmap string (list CfgEntry) :=
  foldl (λ pkgEntries kv,
           let name := originName kv.2 in
           <[name := default [] (pkgEntries !! name) ++ [kv.2]]> pkgEntries)
        ∅ (settingsOrder (Settings cfg)).

Fixpoint printPkgs (cfg : Cfg) (pkgNameEntryMap : gmap string (list CfgEntry))
    (i : nat) (pkgNames : list string) (out : list string) : list string :=
  match pkgNames with
  | [] => out
  | pkgName :: rest =>
      let out := if bool_decide (0 < i) then StatusMessage out nl else out in
      let out := printPkgCfg pkgName cfg (entriesOf pkgNameEntryMap pkgName) out in
      printPkgs cfg pkgNameEntryMap (S i) rest out
  end.

Definition printCfg (targetName : string) (cfg : Cfg) (out : list string)
    : list string :=
  let out := if bool_decide (ErrorText cfg ≠ "")
             then StatusMessage out ("!!! " +:+ ErrorText cfg +:+ nl +:+ nl)
             else out in
  let out := StatusMessage out ("Syscfg for " +:+ targetName +:+ ":" +:+ nl) in
  let pkgNameEntryMap := EntriesByPkg cfg in
  printPkgs cfg pkgNameEntryMap 0 (sortedPkgNames pkgNameEntryMap) out.

Fixpoint yamlPkgs (cfg : Cfg) (pkgNameEntryMap : gmap string (list CfgEntry))
    (i : nat) (pkgNames : list string) (buf : string) : string :=
  match pkgNames with
  | [] => buf
  | pkgName :: rest =>
      let buf := if bool_decide (0 < i) then Fprintf buf nl else buf in
      let buf := yamlPkgCfg buf pkgName cfg (entriesOf pkgNameEntryMap pkgName) in
      yamlPkgs cfg pkgNameEntryMap (S i) rest buf
  end.

(** [yamlCfg] returns the yaml text; the error text goes to the terminal. *)
Definition yamlCfg (cfg : Cfg) (out : list string) : string * list string :=
  let out := if bool_decide (ErrorText cfg ≠ "")
             then StatusMessage out ("!!! " +:+ ErrorText cfg +:+ nl +:+ nl)
             else out in
  let pkgNameEntryMap := EntriesByPkg cfg in
  let buf := Fprintf "" ("syscfg.vals:" +:+ nl) in
  (yamlPkgs cfg pkgNameEntryMap 0 (sortedPkgNames pkgNameEntryMap) buf, out).

End listing.

End cli.

(** ** Specification-side notions *)
Module spec.

(** The entry points that the packages register, package by package. *)
Definition registered (pkgs : list pkg.LocalPackage) : list sysinit.initFunc :=
  p ← pkgs;
  (λ e : string * Z, sysinit.mkInitFunc e.2 e.1 p) <$> map_to_list (pkg.InitFuncs p).

(** The entry points in the order in which the loops numbered from [n] meet
    them. *)
Fixpoint ranged (rng : sysinit.Ranges) (n : nat) (pkgs : list pkg.LocalPackage)
    : list sysinit.initFunc :=
  match pkgs with
  | [] => []
  | p :: rest =>
      ((λ e : string * Z, sysinit.mkInitFunc e.2 e.1 p) <$> rng n (pkg.InitFuncs p))
      ++ ranged rng (S n) rest
  end.

(** The forward declaration of an entry point. *)
Definition prototype (name : string) : string :=
  "void " +:+ name +:+ "(void);" +:+ nl.

(** The two lines of an entry point in the block of its stage: the label with
    the owning package, and the call. *)
Definition stageEntry (stage : Z) (i : nat) (f : sysinit.initFunc) : string :=
  ("    /* " +:+ fmt_d stage +:+ "." +:+ fmt_d (Z.of_nat i) +:+ ": "
   +:+ pkg.Name (sysinit.pkg f) +:+ " */" +:+ nl)
  +:+ ("    " +:+ sysinit.name f +:+ "();" +:+ nl).

(** The comment that opens the block of a stage. *)
Definition stageHeader (stage : Z) : string :=
  "    /*** Stage " +:+ fmt_d stage +:+ " */" +:+ nl.

(** The block of a stage, with the empty line before it. *)
Definition stageBlock (b : Z * list sysinit.initFunc) : string :=
  nl +:+ stageHeader b.1 +:+ concat_str (imap (stageEntry b.1) b.2).

(** The conditional that selects the build variant, and the function name. *)
Definition guard (isLoader : bool) : string :=
  if isLoader then "#if SPLIT_LOADER" +:+ nl +:+ nl
  else "#if !SPLIT_LOADER" +:+ nl +:+ nl.

Definition fnName (isLoader : bool) : string :=
  if isLoader then "sysinit_loader" else "sysinit_app".

(** One [append] of [buildStageMap]. *)
Definition addFunc (sm : gmap Z (list sysinit.initFunc)) (f : sysinit.initFunc)
    : gmap Z (list sysinit.initFunc) :=
  <[sysinit.stage f := default [] (sm !! sysinit.stage f) ++ [f]]> sm.

(** The stage map as the list of blocks that [write] emits. *)
Definition blocksOf (sm : gmap Z (list sysinit.initFunc))
    : list (Z * list sysinit.initFunc) :=
  (λ s, (s, default [] (sm !! s))) <$> sysinit.sortedStages sm.

(** The fields that [Save] renders, in the order of the file. *)
Definition descriptorFields (typeNames : gmap Z string) (p : pkg.LocalPackage)
    : list (string * string) :=
  [ ("pkg.name", pkg.Name p);
    ("pkg.vers", pkg.Version_String (pkg.vers p));
    ("pkg.type", pkg.typeName typeNames (pkg.Type_ p));
    ("pkg.description", pkg.Description (pkg.desc p));
    ("pkg.author", pkg.Author (pkg.desc p));
    ("pkg.homepage", pkg.Homepage (pkg.desc p));
    ("pkg.repository", pkg.repo_Name (pkg.repo p)) ].

(** A field on its line. *)
Definition fieldLine (kv : string * string) : string :=
  kv.1 +:+ ": " +:+ kv.2 +:+ nl.

(** The descriptor text: the title comment, an empty line, the fields. *)
Definition renderDescriptor (typeNames : gmap Z string) (p : pkg.LocalPackage)
    : string :=
  ("### Package: " +:+ pkg.Name p +:+ nl +:+ nl)
  +:+ concat_str (fieldLine <$> descriptorFields typeNames p).

(** The path of the descriptor that [Save] writes. *)
Definition descriptorPath (p : pkg.LocalPackage) : string :=
  pkg.BasePath p +:+ "/" +:+ pkg.PACKAGE_FILE_NAME.

(** The inner loop of [ReadLocalPackageRecursive], named. *)
Section discovery.
Variable typeNames : gmap Z string.
Variable LIB : pkg.PackageType.
Variable ReadYaml : string → option (gmap string pkg.Value).
Variable LoadVersion : string → NewtError + pkg.Version.
Variable Clean : string → string.
Variable typeOrder : RangeOrder Z string.
Variable r : pkg.Repo.

Fixpoint walkEntries (pkgList : gmap string pkg.LocalPackage)
    (basePath pkgName : string) (ents : list (string * tree.Node))
    : gmap string pkg.LocalPackage * option NewtError :=
  match ents with
  | [] => (pkgList, None)
  | (name, dirEnt) :: rest =>
      if negb (tree.IsDir dirEnt) then walkEntries pkgList basePath pkgName rest
      else if pkg.LocalPackageSpecialName name || HasPrefix name "."
      then walkEntries pkgList basePath pkgName rest
      else
        match pkg.ReadLocalPackageRecursive typeNames LIB ReadYaml LoadVersion
                Clean typeOrder r pkgList basePath
                (pkgName +:+ "/" +:+ name) dirEnt with
        | (pkgList, Some err) => (pkgList, Some err)
        | (pkgList, None) => walkEntries pkgList basePath pkgName rest
        end
  end.

(** A directory entry that the recursion enters: a directory that is neither
    reserved nor hidden. *)
Definition entered (name : string) (n : tree.Node) : bool :=
  tree.IsDir n && negb (pkg.LocalPackageSpecialName name || HasPrefix name ".").

(** A directory with a descriptor. *)
Definition hasDescriptor (d : tree.Node) : Prop :=
  ∃ es, d = tree.Dir es true ∧ is_Some (tree.lookup es pkg.PACKAGE_FILE_NAME).

Definition ownSite (path : string) (dirList : list (string * tree.Node))
    : list (string * tree.Node) :=
  match tree.lookup dirList pkg.PACKAGE_FILE_NAME with
  | Some _ => [(path, tree.Dir dirList true)]
  | None => []
  end.

(** The directories in which discovery loads a descriptor, each with the
    path handed to the load, in the order of the loads: those below a
    directory come before the directory itself. *)
Fixpoint loadSites (basePath pkgName : string) (dir : tree.Node) {struct dir}
    : list (string * tree.Node) :=
  match dir with
  | tree.Dir dirList true =>
      (fix below (ents : list (string * tree.Node)) :=
         match ents with
         | [] => []
         | (name, n) :: rest =>
             (if entered name n
              then loadSites basePath (pkgName +:+ "/" +:+ name) n else [])
             ++ below rest
         end) dirList
      ++ ownSite (basePath +:+ "/" +:+ pkgName) dirList
  | _ => []
  end.

Fixpoint sitesBelow (basePath pkgName : string) (ents : list (string * tree.Node))
    : list (string * tree.Node) :=
  match ents with
  | [] => []
  | (name, n) :: rest =>
      (if entered name n
       then loadSites basePath (pkgName +:+ "/" +:+ name) n else [])
      ++ sitesBelow basePath pkgName rest
  end.

(** Every directory that the recursion reaches can be listed. *)
Fixpoint listable (dir : tree.Node) {struct dir} : bool :=
  match dir with
  | tree.Dir dirList true =>
      (fix all (ents : list (string * tree.Node)) :=
         match ents with
         | [] => true
         | (name, n) :: rest =>
             (if entered name n then listable n else true) && all rest
         end) dirList
  | _ => false
  end.

Fixpoint listableBelow (ents : list (string * tree.Node)) : bool :=
  match ents with
  | [] => true
  | (name, n) :: rest =>
      (if entered name n then listable n else true) && listableBelow rest
  end.

(** The load of the descriptor of a site. *)
Definition loadAt (site : string * tree.Node) : option pkg.LocalPackage :=
  match pkg.LoadLocalPackage typeNames LIB ReadYaml LoadVersion Clean typeOrder
          r site.1 site.2 with
  | (p, None) => Some p
  | (_, Some _) => None
  end.

(** The packages of a list of sites, when every load succeeds. *)
Fixpoint loads (sites : list (string * tree.Node))
    : option (list pkg.LocalPackage) :=
  match sites with
  | [] => Some []
  | site :: rest =>
      match loadAt site, loads rest with
      | Some p, Some ps => Some (p :: ps)
      | _, _ => None
      end
  end.

(** An entry of a search directory that discovery enters: a directory that
    is not hidden.  Reserved names are not looked at on this level. *)
Definition topEntered (name : string) (n : tree.Node) : bool :=
  negb (HasPrefix name "." || HasPrefix name "..") && tree.IsDir n.

Fixpoint rootSites (pkgDir : string) (dirList : list (string * tree.Node))
    : list (string * tree.Node) :=
  match dirList with
  | [] => []
  | (name, n) :: rest =>
      (if topEntered name n then loadSites pkgDir name n else [])
      ++ rootSites pkgDir rest
  end.

Fixpoint rootListable (dirList : list (string * tree.Node)) : bool :=
  match dirList with
  | [] => true
  | (name, n) :: rest =>
      (if topEntered name n then listable n else true) && rootListable rest
  end.

(** The sites of a whole run, search path after search path. *)
Fixpoint searchSites (mnt : tree.Mount) (basePath : string)
    (searchPaths : list string) : list (string * tree.Node) :=
  match searchPaths with
  | [] => []
  | path :: rest =>
      match mnt (basePath +:+ "/" +:+ path) with
      | Some (_, tree.Dir dirList true) =>
          rootSites (basePath +:+ "/" +:+ path) dirList
      | _ => []
      end ++ searchSites mnt basePath rest
  end.

Fixpoint searchListable (mnt : tree.Mount) (basePath : string)
    (searchPaths : list string) : bool :=
  match searchPaths with
  | [] => true
  | path :: rest =>
      match mnt (basePath +:+ "/" +:+ path) with
      | None => true
      | Some (_, tree.Dir dirList true) => rootListable dirList
      | Some _ => false
      end && searchListable mnt basePath rest
  end.

End discovery.

(** [pkgList[pkg.Name()] = pkg] *)
Definition insertPkg (m : gmap string pkg.LocalPackage) (p : pkg.LocalPackage)
    : gmap string pkg.LocalPackage :=
  <[pkg.Name p := p]> m.

(** The path reached from [start] through the directories [comps]. *)
Definition joinPath (start : string) (comps : list string) : string :=
  foldl (λ p c, p +:+ "/" +:+ c) start comps.

(** [descends d comps d']: from the directory [d], the names [comps] lead to
    [d'] through listable directories, each step entering a directory that
    is neither reserved nor hidden.  Descriptors play no part. *)
Inductive descends : tree.Node → list string → tree.Node → Prop :=
| descends_here d : descends d [] d
| descends_step es name sub comps d :
    (name, sub) ∈ es →
    entered name sub = true →
    descends sub comps d →
    descends (tree.Dir es true) (name :: comps) d.

(** [nestedIn p q]: the base directory of [q] lies below that of [p]. *)
Definition nestedIn (p q : pkg.LocalPackage) : Prop :=
  pkg.basePath p ≠ pkg.basePath q
  ∧ String.prefix (pkg.basePath p) (pkg.basePath q) = true.

(** No package of the list lies below another one. *)
Definition noNestedPackages (m : gmap string pkg.LocalPackage) : Prop :=
  ∀ n1 n2 p q, m !! n1 = Some p → m !! n2 = Some q → ¬ nestedIn p q.

(** The listing shows a setting as overridden. *)
Definition overriddenShown (entry : cli.CfgEntry) : Prop :=
  "    * Overridden: " ∈ cli.printSetting entry [].

(** The first four texts of a setting. *)
Definition settingTexts (entry : cli.CfgEntry) : list string :=
  [ "  * Setting: " +:+ cli.Name entry +:+ nl;
    "    * Description: " +:+ cli.Description entry +:+ nl;
    "    * Value: " +:+ cli.Value entry;
    nl ].

(** The texts of the override trail: the sources of the history after its
    first point, then the value of the first point. *)
Definition overrideTexts (entry : cli.CfgEntry) : list string :=
  "    * Overridden: "
  :: ((λ pt, pkg.Name (cli.Source pt) +:+ ", ") <$> drop 1 (cli.History entry))
  ++ [ "default=" +:+ cli.pt_Value (default cli.zeroPoint (head (cli.History entry)))
       +:+ nl ].

(** The settings of a package in the listing and in the yaml text. *)
Definition listedGroup (cfg : cli.Cfg) (g : string * list string) : list string :=
  ("* PACKAGE: " +:+ g.1 +:+ nl)
  :: concat ((λ name, cli.printSetting (cli.setting cfg name) []) <$> g.2).

Definition yamlLine (cfg : cli.Cfg) (name : string) : string :=
  "    " +:+ name +:+ ": '" +:+ cli.Value (cli.setting cfg name) +:+ "'" +:+ nl.

Definition yamlGroup (cfg : cli.Cfg) (g : string * list string) : string :=
  ("    ### " +:+ g.1 +:+ nl) +:+ concat_str (yamlLine cfg <$> g.2).

(** The groups in the order of the two outputs: the package names sorted,
    and with each the names of its settings sorted. *)
Definition groupsOf (pkgNameEntryMap : gmap string (list cli.CfgEntry))
    : list (string * list string) :=
  (λ pkgName, (pkgName, cli.settingNames (cli.entriesOf pkgNameEntryMap pkgName)))
  <$> cli.sortedPkgNames pkgNameEntryMap.

(** The entries of a configuration. *)
Definition entriesOfCfg (cfg : cli.Cfg) : list cli.CfgEntry :=
  (map_to_list (cli.Settings cfg)).*2.

(** The text that both outputs send to the terminal for the error text. *)
Definition errorTexts (cfg : cli.Cfg) : list string :=
  if bool_decide (cli.ErrorText cfg ≠ "")
  then [ "!!! " +:+ cli.ErrorText cfg +:+ nl +:+ nl ] else [].

(** The groups named by [pkgNames]. *)
Definition groupsFor (m : gmap string (list cli.CfgEntry)) (pkgNames : list string)
    : list (string * list string) :=
  (λ pkgName, (pkgName, cli.settingNames (cli.entriesOf m pkgName))) <$> pkgNames.

(** The loop of [filepath.Walk] over the names of a directory, named. *)
Fixpoint walkList {S : Type}
    (walkFn : string → tree.Node → option disk.Errno → S → S * option pkg.WalkErr)
    (names : list (string * tree.Node)) (s : S) : S * option pkg.WalkErr :=
  match names with
  | [] => (s, None)
  | (n, fileInfo) :: rest =>
      match pkg.walk walkFn n fileInfo s with
      | (s, Some err) =>
          if negb (tree.IsDir fileInfo) || negb (pkg.isSkipDir err)
          then (s, Some err)
          else walkList walkFn rest s
      | (s, None) => walkList walkFn rest s
      end
  end.

(** [hashAlike t t']: the two trees differ at most in the names of regular
    files, none of which takes or leaves an ignored name, and in what lies
    inside directories with an ignored name. *)
Fixpoint hashAlike (t t' : tree.Node) {struct t} : Prop :=
  match t, t' with
  | tree.File data r, tree.File data' r' => data = data' ∧ r = r'
  | tree.Dir es r, tree.Dir es' r' =>
      r = r'
      ∧ (fix all (es es' : list (string * tree.Node)) : Prop :=
           match es, es' with
           | [], [] => True
           | (n, s) :: rest, (n', s') :: rest' =>
               ((n = n' ∧ hashAlike s s')
                ∨ (tree.IsDir s = false ∧ tree.IsDir s' = false
                   ∧ pkg.flag pkg.PackageHashIgnoreDirs n = false
                   ∧ pkg.flag pkg.PackageHashIgnoreDirs n' = false
                   ∧ hashAlike s s')
                ∨ (n = n' ∧ pkg.flag pkg.PackageHashIgnoreDirs n = true
                   ∧ tree.IsDir s = true ∧ tree.IsDir s' = true))
               ∧ all rest rest'
           | _, _ => False
           end) es es'
  | _, _ => False
  end.

(** [hashAlike] on the entries of two directories, named. *)
Fixpoint alikeList (es es' : list (string * tree.Node)) : Prop :=
  match es, es' with
  | [], [] => True
  | (n, s) :: rest, (n', s') :: rest' =>
      ((n = n' ∧ hashAlike s s')
       ∨ (tree.IsDir s = false ∧ tree.IsDir s' = false
          ∧ pkg.flag pkg.PackageHashIgnoreDirs n = false
          ∧ pkg.flag pkg.PackageHashIgnoreDirs n' = false
          ∧ hashAlike s s')
       ∨ (n = n' ∧ pkg.flag pkg.PackageHashIgnoreDirs n = true
          ∧ tree.IsDir s = true ∧ tree.IsDir s' = true))
      ∧ alikeList rest rest'
  | _, _ => False
  end.

End spec.

(** ** Sample inputs *)
Module examples.

Definition package (name : string) (inits : gmap string Z) : pkg.LocalPackage :=
  {| pkg.repo := pkg.mkRepo "local"; pkg.name := name;
     pkg.basePath := "repo/" +:+ name +:+ "/"; pkg.packageType := 0%Z;
     pkg.desc := pkg.mkDesc "" "" "" []; pkg.vers := pkg.mkVersion "0.0.0";
     pkg.Viper := None; pkg.InitFuncs := inits |}.

(** The packages of the scenario: A registers [a_init] at stage 10 and B
    registers [b_init] at stage 20. *)
Definition pkgA : pkg.LocalPackage := package "A" {[ "a_init" := 10%Z ]}.
Definition pkgB : pkg.LocalPackage := package "B" {[ "b_init" := 20%Z ]}.

(** A package with two entry points at one stage. *)
Definition pkgTwo : pkg.LocalPackage :=
  package "sys" (<["a_init" := 1%Z]> {[ "b_init" := 1%Z ]}).

(** The lines of a text. *)
Definition lines (l : list string) : string :=
  concat_str ((λ s, s +:+ nl) <$> l).

(** A table of type names, as a sample of the table declared outside these
    files. *)
Definition typeNames : gmap Z string :=
  <[0%Z := "lib"]> (<[1%Z := "app"]> (<[2%Z := "target"]> ∅)).

(** A version parser for the samples: anything but the empty text. *)
Definition loadVersion (s : string) : NewtError + pkg.Version :=
  if decide (s = "") then inl (DescError "Invalid version string")
  else inr (pkg.mkVersion s).

Definition descriptor (name type : string) : gmap string pkg.Value :=
  <["pkg.name" := pkg.VString name]>
    (<["pkg.type" := pkg.VString type]> (<["pkg.vers" := pkg.VString "0.0.1"]> ∅)).

(** A reader for the samples, in place of the yaml reader: one [key: value]
    on a line; empty lines and lines that start with [#] are skipped. *)
Fixpoint splitLines (s cur : string) : list string :=
  match s with
  | EmptyString => [String.rev cur]
  | String c rest =>
      if Ascii.eqb c (ascii_of_nat 10) then String.rev cur :: splitLines rest ""
      else splitLines rest (String c cur)
  end.

Fixpoint splitKey (line key : string) : option (string * string) :=
  match line with
  | EmptyString => None
  | String c rest =>
      if Ascii.eqb c ":"
      then match rest with
           | String " " value => Some (String.rev key, value)
           | _ => None
           end
      else splitKey rest (String c key)
  end.

Fixpoint readLines (ls : list string) : option (gmap string pkg.Value) :=
  match ls with
  | [] => Some ∅
  | l :: rest =>
      if decide (l = "") then readLines rest
      else if HasPrefix l "#" then readLines rest
      else match splitKey l "", readLines rest with
           | Some (k, v), Some m => Some (<[k := pkg.VString v]> m)
           | _, _ => None
           end
  end.

Definition readYaml (data : string) : option (gmap string pkg.Value) :=
  readLines (splitLines data "").

(** The sample paths are clean already. *)
Definition clean (path : string) : string := path.

Definition localRepo : pkg.Repo := pkg.mkRepo "local".

(** The text of a descriptor. *)
Definition descriptorText (name type : string) : string :=
  lines [ "### Package: " +:+ name; "";
          "pkg.name: " +:+ name; "pkg.vers: 0.0.1"; "pkg.type: " +:+ type ].

(** A package directory: the children, then the descriptor. *)
Definition packageDir (name : string) (children : list (string * tree.Node))
    : tree.Node :=
  tree.Dir (children ++ [("pkg.yml", tree.File (descriptorText name "lib") true)]) true.

(** A mount with one directory. *)
Definition mountAt (path name : string) (n : tree.Node) : tree.Mount :=
  λ q, if decide (q = path) then Some (name, n) else None.

(** [repo/libs/outer] is a package that holds the package
    [repo/libs/outer/inner]. *)
Definition nestedMount : tree.Mount :=
  mountAt "repo/libs" "libs"
    (tree.Dir [("outer", packageDir "outer" [("inner", packageDir "inner" [])])] true).

(** [repo/libs/a] and [repo/libs/b] both declare the name [dup]. *)
Definition dupMount : tree.Mount :=
  mountAt "repo/libs" "libs"
    (tree.Dir [("a", packageDir "dup" []); ("b", packageDir "dup" [])] true).

(** Discovery with the sample table, reader and version parser. *)
Definition discover (mnt : tree.Mount) (searchPaths : list string)
    : NewtError + gmap string pkg.LocalPackage :=
  pkg.ReadLocalPackages typeNames 0%Z readYaml loadVersion clean range_fwd
    mnt localRepo "repo" searchPaths.

(** A package directory with one source file, and the same with the file
    renamed. *)
Definition hashPkg : pkg.LocalPackage := package "p" ∅.
Definition hashMountA : tree.Mount :=
  mountAt "repo/p/" "p" (tree.Dir [("a.c", tree.File "x" true)] true).
Definition hashMountB : tree.Mount :=
  mountAt "repo/p/" "p" (tree.Dir [("b.c", tree.File "x" true)] true).

(** A setting with its default and one override. *)
Definition overriddenOnce : cli.CfgEntry :=
  cli.mkEntry "LOG_LEVEL" "Log level" "1"
    [ cli.mkPoint "0" (package "sys/log" ∅); cli.mkPoint "1" (package "apps/blinky" ∅) ].

(** A configuration with settings of two packages. *)
Definition sampleCfg : cli.Cfg :=
  cli.mkCfg
    (<["LOG_LEVEL" := overriddenOnce]>
       (<["LOG_CLI" := cli.mkEntry "LOG_CLI" "Log shell" "0"
                         [cli.mkPoint "0" (package "sys/log" ∅)]]>
          (<["CONSOLE_TICKS" := cli.mkEntry "CONSOLE_TICKS" "Ticks" "1"
                                  [cli.mkPoint "1" (package "sys/console" ∅)]]> ∅)))
    "".

End examples.

(** ** More string functions of the Go library *)

(** [strings.HasSuffix] *)
Fixpoint HasSuffix (s suffix : string) : bool :=
  if decide (s = suffix) then true
  else match s with
       | EmptyString => false
       | String _ rest => HasSuffix rest suffix
       end.

(** [strings.TrimSuffix]: [s] without the suffix, when it ends with it. *)
Fixpoint TrimSuffix (s suffix : string) : string :=
  if decide (s = suffix) then ""
  else match s with
       | EmptyString => ""
       | String a rest => String a (TrimSuffix rest suffix)
       end.

Fixpoint dropString (n : nat) (s : string) : string :=
  match n, s with
  | S n, String _ rest => dropString n rest
  | _, _ => s
  end.

(** [strings.TrimPrefix]: [s] without the prefix, when it starts with it. *)
Definition TrimPrefix (s prefix : string) : string :=
  if HasPrefix s prefix then dropString (String.length prefix) s else s.

(** [strings.SplitN(s, sep, 2)] for a separator of one byte: the text before
    the first separator and the text after it, or [s] alone. *)
Fixpoint SplitN2 (s : string) (sep : ascii) : string * option string :=
  match s with
  | EmptyString => ("", None)
  | String a rest =>
      if Ascii.eqb a sep then ("", Some rest)
      else let '(before, after) := SplitN2 rest sep in (String a before, after)
  end.

(** ** Package [pkg]: the dependencies of a package

    The dependency type is declared outside these files; the code reads it
    through [String()] only. *)
Module pkgdeps.
Section deps.
Context {Dependency : Type}.
Variable String_ : Dependency → string.

(** [HasDep] on the dependencies of the package. *)
Fixpoint HasDep (deps : list Dependency) (searchDep : Dependency) : bool :=
  match deps with
  | [] => false
  | dep :: rest =>
      if decide (String_ dep = String_ searchDep) then true
      else HasDep rest searchDep
  end.

(** [AddDep], [AddApi] and [AddReqApi] append to their list. *)
Definition AddDep (deps : list Dependency) (dep : Dependency) : list Dependency :=
  deps ++ [dep].

End deps.
End pkgdeps.

(** ** Package [cli]: the target commands *)
Module targetcmd.

(** What the commands store in a viper and read from it: nothing ([nil]), a
    sequence of texts, or the map of the syscfg values. *)
Inductive Stored : Type :=
| Nil
| Slice (l : list string)
| StringMap (m : gmap string string).

Definition GetStringSlice (v : gmap string Stored) (key : string) : list string :=
  match v !! key with Some (Slice l) => l | _ => [] end.

Definition GetStringMapString (v : gmap string Stored) (key : string)
    : gmap string string :=
  match v !! key with Some (StringMap m) => m | _ => ∅ end.

(** A target with its base package: the variables of the target and the two
    vipers of the package. *)
Record Target : Type := mkTarget {
  FullName : string;
  BasePath : string;
  Vars : gmap string string;
  PkgV : gmap string Stored;
  SyscfgV : gmap string Stored;
}.

(** [pkgVarSliceString] on the viper [pack.PkgV]. *)
Definition pkgVarSliceString (PkgV : gmap string Stored) (key : string) : string :=
  let features := sort_Strings (GetStringSlice PkgV key) in
  foldl (λ buffer f, (buffer +:+ f) +:+ " ") "" features.

(** The outcome of a command: [NewtUsage] ends the process with the usage
    text and the error, if any. *)
Inductive Result (A : Type) : Type :=
| Usage (err : option NewtError)
| Ok (a : A).
Arguments Usage {A} err.
Arguments Ok {A} a.

Section commands.
(** Declared outside these files: the name of the target file, the two
    conversions of package [syscfg], the lookup of a target by the name given
    on the command line, and [Save] of a target. *)
Variable TARGET_FILENAME : string.
Variable KeyValueToStr : gmap string string → string.
Variable KeyValueFromStr : string → NewtError + gmap string string.
Variable ResolveTarget : string → option Target.
Variable Save : Target → option NewtError.

(** [targetContainsUserFiles] on the node at the base path of the target. *)
Fixpoint hasUserFile (contents : list (string * tree.Node)) : bool :=
  match contents with
  | [] => false
  | (name, _) :: rest =>
      if bool_decide (name ≠ "." ∧ name ≠ ".." ∧ name ≠ pkg.PACKAGE_FILE_NAME
                      ∧ name ≠ TARGET_FILENAME)
      then true
      else hasUserFile rest
  end.

Definition targetContainsUserFiles (dir : tree.Node) : bool * option disk.Errno :=
  match tree.ReadDir dir with
  | inl err => (false, Some err)
  | inr contents => (hasUserFile contents, None)
  end.

(** The body of the loop of [targetShowCmd] for one target. *)
Definition collectVars (kvPairs : gmap string string) (kv : string * string)
    : gmap string string :=
  <[TrimPrefix kv.1 "target." := kv.2]> kvPairs.

Definition showPairs (order : RangeOrder string string) (t : Target)
    : gmap string string :=
  let kvPairs := foldl collectVars ∅ (order (Vars t)) in
  let kvPairs :=
    <["syscfg" := KeyValueToStr (GetStringMapString (SyscfgV t) "syscfg.vals")]>
      kvPairs in
  let kvPairs := <["cflags" := pkgVarSliceString (PkgV t) "pkg.cflags"]> kvPairs in
  let kvPairs := <["lflags" := pkgVarSliceString (PkgV t) "pkg.lflags"]> kvPairs in
  <["aflags" := pkgVarSliceString (PkgV t) "pkg.aflags"]> kvPairs.

Definition showPair (kvPairs : gmap string string) (out : list string) (k : string)
    : list string :=
  let val := default "" (kvPairs !! k) in
  if bool_decide (0 < String.length val)
  then cli.StatusMessage out ("    " +:+ k +:+ "=" +:+ val +:+ nl)
  else out.

Definition showTarget (order : RangeOrder string string) (name : string)
    (t : Target) (out : list string) : list string :=
  let out := cli.StatusMessage out (name +:+ nl) in
  let kvPairs := showPairs order t in
  let keys := sort_Strings (map_to_list kvPairs).*1 in
  foldl (showPair kvPairs) out keys.

(** The names that [targetShowCmd] shows when no target is named: all
    targets but the unit test targets, sorted. *)
Definition shownTargetNames (targets : gmap string Target) : list string :=
  sort_Strings
    (filter (λ name, HasSuffix name "/unittest" = false) (map_to_list targets).*1).

(** ** [targetSetCmd] *)

(** The first loop: the arguments [k=v] become pairs. *)
Fixpoint parseVars (args : list string) : Result (list (string * string)) :=
  match args with
  | [] => Ok []
  | arg :: rest =>
      let '(k, v) := SplitN2 arg "=" in
      let k := if HasPrefix k "target." then k else "target." +:+ k in
      match v with
      | None => Usage None
      | Some v =>
          let v := TrimSuffix v "/" in
          match parseVars rest with
          | Usage err => Usage err
          | Ok vars => Ok ((k, v) :: vars)
          end
      end
  end.

(** The second loop, for one pair: the target is updated, and so is the name
    of the pair when the variable belongs to the base package. *)
Definition setVar (t : Target) (kv : string * string)
    : Result (Target * (string * string)) :=
  let '(k, v) := kv in
  if decide (k = "target.syscfg") then
    match KeyValueFromStr v with
    | inl err => Usage (Some err)
    | inr vals =>
        Ok ({| FullName := FullName t; BasePath := BasePath t; Vars := Vars t;
               PkgV := PkgV t;
               SyscfgV := {[ "syscfg.vals" := StringMap vals ]} |}, (k, v))
    end
  else if bool_decide (k = "target.cflags" ∨ k = "target.lflags" ∨ k = "target.aflags")
  then
    let k := "pkg." +:+ TrimPrefix k "target." in
    let stored := if decide (v = "") then Nil else Slice (String.words v) in
    Ok ({| FullName := FullName t; BasePath := BasePath t; Vars := Vars t;
           PkgV := <[k := stored]> (PkgV t); SyscfgV := SyscfgV t |}, (k, v))
  else
    let vars := if decide (v = "") then delete k (Vars t) else <[k := v]> (Vars t) in
    Ok ({| FullName := FullName t; BasePath := BasePath t; Vars := vars;
           PkgV := PkgV t; SyscfgV := SyscfgV t |}, (k, v)).

Fixpoint setVars (t : Target) (vars : list (string * string))
    : Result (Target * list (string * string)) :=
  match vars with
  | [] => Ok (t, [])
  | kv :: rest =>
      match setVar t kv with
      | Usage err => Usage err
      | Ok (t, kv) =>
          match setVars t rest with
          | Usage err => Usage err
          | Ok (t, rest) => Ok (t, kv :: rest)
          end
      end
  end.

(** The message of the last loop for one pair. *)
Definition setMessage (t : Target) (out : list string) (kv : string * string)
    : list string :=
  if decide (kv.2 = "")
  then cli.StatusMessage out
         ("Target " +:+ FullName t +:+ " successfully unset " +:+ kv.1 +:+ nl)
  else cli.StatusMessage out
         ("Target " +:+ FullName t +:+ " successfully set " +:+ kv.1 +:+ " to "
          +:+ kv.2 +:+ nl).

Definition targetSetCmd (args : list string) (out : list string)
    : Result (Target * list string) :=
  match args with
  | [] | [_] =>
      Usage (Some (DescError
        "Must specify at least two arguments (target-name & k=v) to set"))
  | name :: rest =>
      match ResolveTarget name with
      | None => Usage (Some (DescError ("Unknown target: " +:+ name)))
      | Some t =>
          match parseVars rest with
          | Usage err => Usage err
          | Ok vars =>
              match setVars t vars with
              | Usage err => Usage err
              | Ok (t, vars) =>
                  match Save t with
                  | Some err => Usage (Some err)
                  | None => Ok (t, foldl (setMessage t) out vars)
                  end
              end
          end
      end
  end.

End commands.

End targetcmd.

(** * Properties *)

(** ** Texts and sorting *)

Lemma str_app_cons (x : ascii) (a b : string) : String x a +:+ b = String x (a +:+ b).
Proof. reflexivity. Qed.

Lemma str_app_nil_l (a : string) : "" +:+ a = a.
Proof. reflexivity. Qed.

Lemma str_app_nil_r (a : string) : a +:+ "" = a.
Proof. induction a as [|x a IH]; [done|]. by rewrite str_app_cons, IH. Qed.

Lemma str_app_assoc (a b c : string) : (a +:+ b) +:+ c = a +:+ (b +:+ c).
Proof. induction a as [|x a IH]; [done|]. by rewrite !str_app_cons, IH. Qed.

Lemma concat_str_app (l k : list string) :
  concat_str (l ++ k) = concat_str l +:+ concat_str k.
Proof.
  induction l as [|x l IH]; [done|]. simpl. by rewrite IH, str_app_assoc.
Qed.

Lemma foldl_Fprintf {A} (f : A → string) (l : list A) (w : string) :
  foldl (λ w x, Fprintf w (f x)) w l = w +:+ concat_str (f <$> l).
Proof.
  revert w. induction l as [|x l IH]; intros w; simpl.
  - by rewrite str_app_nil_r.
  - rewrite IH. unfold Fprintf. by rewrite str_app_assoc.
Qed.

(** Sorting *)
Lemma merge_sort_unique {A} (R : relation A) `{!RelDecision R}
    `{!Transitive R, !Total R, !AntiSymm (=) R} (l k : list A) :
  l ≡ₚ k → merge_sort R l = merge_sort R k.
Proof.
  intros Hp. apply (Sorted_unique R).
  - apply Sorted_merge_sort; apply _.
  - apply Sorted_merge_sort; apply _.
  - by rewrite !merge_sort_Permutation.
Qed.

Lemma sorted_le_NoDup_lt (l : list Z) :
  StronglySorted Z.le l → NoDup l → StronglySorted Z.lt l.
Proof.
  induction 1 as [|x l Hs IH Hall]; intros Hnd; constructor.
  - apply IH. by apply NoDup_cons in Hnd as [_ ?].
  - apply NoDup_cons in Hnd as [Hx _].
    rewrite Forall_forall in Hall |- *. intros y Hy.
    specialize (Hall y Hy). assert (x ≠ y) by (intros ->; done). lia.
Qed.

Lemma sort_Ints_sorted (l : list Z) : NoDup l → StronglySorted Z.lt (sort_Ints l).
Proof.
  intros Hnd. apply sorted_le_NoDup_lt.
  - apply StronglySorted_merge_sort; apply _.
  - unfold sort_Ints. by rewrite merge_sort_Permutation.
Qed.

Lemma elem_of_sort_Ints (l : list Z) (x : Z) : x ∈ sort_Ints l ↔ x ∈ l.
Proof. unfold sort_Ints. by rewrite merge_sort_Permutation. Qed.
(** ** The generator *)
Import sysinit spec.


Lemma foldl_appendInitFunc p (entries : list (string * Z)) sm :
  foldl (appendInitFunc p) sm entries =
  foldl addFunc sm ((λ e : string * Z, mkInitFunc e.2 e.1 p) <$> entries).
Proof.
  revert sm. induction entries as [|[nm st] es IH]; intros sm; [done|].
  simpl. by rewrite IH.
Qed.

Lemma buildStageMap_from_ranged rng n pkgs sm :
  buildStageMap_from rng n pkgs sm = foldl addFunc sm (ranged rng n pkgs).
Proof.
  revert n sm. induction pkgs as [|p ps IH]; intros n sm; [done|].
  simpl. by rewrite IH, foldl_app, foldl_appendInitFunc.
Qed.

Lemma foldl_addFunc_lookup (fs : list initFunc) sm (s : Z) :
  foldl addFunc sm fs !! s =
  match filter (λ f, stage f = s) fs with
  | [] => sm !! s
  | g :: gs => Some (default [] (sm !! s) ++ g :: gs)
  end.
Proof.
  revert sm. induction fs as [|f fs IH]; intros sm; [done|].
  simpl. rewrite IH. unfold addFunc at 1 2.
  rewrite filter_cons. destruct (decide (stage f = s)) as [->|Hne].
  - rewrite lookup_insert_eq. simpl.
    destruct (filter _ fs); simpl; by rewrite <- ?app_assoc.
  - by rewrite lookup_insert_ne.
Qed.

Lemma buildStageMap_lookup rng pkgs (s : Z) :
  buildStageMap rng pkgs !! s =
  match filter (λ f, stage f = s) (ranged rng 0 pkgs) with
  | [] => None
  | fs => Some fs
  end.
Proof.
  unfold buildStageMap. rewrite buildStageMap_from_ranged, foldl_addFunc_lookup.
  rewrite lookup_empty. by destruct (filter _ _).
Qed.

Lemma ranged_registered rng n pkgs :
  valid_ranges rng → ranged rng n pkgs ≡ₚ registered pkgs.
Proof.
  intros Hv. revert n. induction pkgs as [|p ps IH]; intros n; [done|].
  unfold registered. simpl. rewrite (Hv n (pkg.InitFuncs p)).
  apply Permutation_app; [done|]. apply IH.
Qed.

Lemma registered_Permutation pkgs pkgs' :
  pkgs ≡ₚ pkgs' → registered pkgs ≡ₚ registered pkgs'.
Proof. intros Hp. unfold registered. by rewrite Hp. Qed.

Lemma writePrototypes_from_spec rng n sorted w :
  writePrototypes_from rng n sorted w =
  w +:+ concat_str ((λ f, prototype (name f)) <$> ranged rng n sorted).
Proof.
  revert n w. induction sorted as [|p ps IH]; intros n w; simpl.
  - by rewrite str_app_nil_r.
  - rewrite IH. unfold writePrototype.
    rewrite (foldl_Fprintf (λ e : string * Z, "void " +:+ e.1 +:+ "(void);" +:+ nl)).
    rewrite fmap_app, concat_str_app, str_app_assoc.
    by rewrite <- list_fmap_compose.
Qed.

Lemma writeStage_from_spec s i fs w :
  writeStage_from s i fs w = w +:+ concat_str (imap (λ j, stageEntry s (i + j)) fs).
Proof.
  revert i w. induction fs as [|f fs IH]; intros i w; simpl.
  - by rewrite str_app_nil_r.
  - rewrite IH.
    replace (imap (λ j, stageEntry s (S i + j)) fs)
      with (imap ((λ j, stageEntry s (i + j)) ∘ S) fs)
      by (apply imap_ext; intros j x _; simpl; f_equal; lia).
    unfold Fprintf, stageEntry at 2. rewrite Nat.add_0_r.
    by rewrite !str_app_assoc.
Qed.

Lemma writeStage_spec s fs w :
  writeStage s fs w = w +:+ stageHeader s +:+ concat_str (imap (stageEntry s) fs).
Proof.
  unfold writeStage. rewrite writeStage_from_spec. unfold Fprintf, stageHeader.
  by rewrite !str_app_assoc.
Qed.

Lemma writeStages_spec (sm : gmap Z (list initFunc)) stages w :
  writeStages sm stages w =
  w +:+ concat_str (stageBlock <$> ((λ s, (s, default [] (sm !! s))) <$> stages)).
Proof.
  unfold writeStages. revert w. induction stages as [|s ss IH]; intros w; simpl.
  - by rewrite str_app_nil_r.
  - rewrite IH, writeStage_spec. unfold Fprintf, stageBlock. simpl.
    by rewrite !str_app_assoc.
Qed.

Lemma sortedStages_sorted (sm : gmap Z (list initFunc)) :
  StronglySorted Z.lt (sortedStages sm).
Proof. apply sort_Ints_sorted, NoDup_fst_map_to_list. Qed.

Lemma elem_of_sortedStages (sm : gmap Z (list initFunc)) (s : Z) :
  s ∈ sortedStages sm ↔ is_Some (sm !! s).
Proof.
  unfold sortedStages. rewrite elem_of_sort_Ints, list_elem_of_fmap. split.
  - intros [[k v] [-> Hin]]. apply elem_of_map_to_list in Hin. eauto.
  - intros [v Hv]. exists (s, v). split; [done|]. by apply elem_of_map_to_list.
Qed.


Lemma write_spec (P : string) rng pkgs isLoader w :
  write P rng pkgs isLoader w =
  w +:+ P +:+ guard isLoader
    +:+ concat_str ((λ f, prototype (name f)) <$>
                      ranged rng (length pkgs) (pkg.SortLclPkgs pkgs))
    +:+ nl
    +:+ ("void" +:+ nl +:+ fnName isLoader +:+ "(void)" +:+ nl +:+ "{" +:+ nl)
    +:+ concat_str (stageBlock <$> blocksOf (buildStageMap rng pkgs))
    +:+ ("}" +:+ nl +:+ nl) +:+ ("#endif" +:+ nl).
Proof.
  unfold write, writePrototypes. rewrite writeStages_spec, writePrototypes_from_spec.
  unfold Fprintf, blocksOf.
  destruct isLoader; simpl; by rewrite !str_app_assoc.
Qed.

Lemma blocksOf_fst (sm : gmap Z (list initFunc)) : (blocksOf sm).*1 = sortedStages sm.
Proof.
  unfold blocksOf. rewrite <- list_fmap_compose.
  induction (sortedStages sm) as [|s ss IH]; [done|]. simpl. by f_equal.
Qed.

Lemma SortLclPkgs_Permutation pkgs : pkg.SortLclPkgs pkgs ≡ₚ pkgs.
Proof. apply merge_sort_Permutation. Qed.

(** C5.  The text that [write] appends is the preamble, the guard of the
    build variant, one prototype for each registered entry point, the head of
    the function, and then one block for each registered stage: the blocks
    come in strictly ascending stage order, a stage has a block exactly when
    an entry point is registered at it, and the block of a stage, opened by
    the comment naming the stage, holds for each entry point registered at
    that stage the label with its owning package followed by its call
    ([stageBlock]). *)
Theorem write_stage_blocks (P : string) (rng : Ranges)
    (pkgs : list pkg.LocalPackage) (isLoader : bool) (w : string) :
  valid_ranges rng →
  ∃ (protos : list string) (blocks : list (Z * list initFunc)),
    write P rng pkgs isLoader w =
      w +:+ P +:+ guard isLoader
        +:+ concat_str (prototype <$> protos)
        +:+ nl
        +:+ ("void" +:+ nl +:+ fnName isLoader +:+ "(void)" +:+ nl +:+ "{" +:+ nl)
        +:+ concat_str (stageBlock <$> blocks)
        +:+ ("}" +:+ nl +:+ nl) +:+ ("#endif" +:+ nl)
    ∧ protos ≡ₚ name <$> registered pkgs
    ∧ StronglySorted Z.lt blocks.*1
    ∧ (∀ s, s ∈ blocks.*1 ↔ ∃ f, f ∈ registered pkgs ∧ stage f = s)
    ∧ (∀ s fs, (s, fs) ∈ blocks →
         fs ≡ₚ filter (λ f, stage f = s) (registered pkgs)).
Proof.
  intros Hv.
  exists (name <$> ranged rng (length pkgs) (pkg.SortLclPkgs pkgs)),
         (blocksOf (buildStageMap rng pkgs)).
  assert (Hlook : ∀ s, default [] (buildStageMap rng pkgs !! s)
                       = filter (λ f, stage f = s) (ranged rng 0 pkgs)).
  { intros s. rewrite buildStageMap_lookup. by destruct (filter _ _). }
  split; [|split; [|split; [|split]]].
  - rewrite write_spec. by rewrite <- list_fmap_compose.
  - rewrite (ranged_registered _ _ _ Hv). apply fmap_Permutation.
    apply registered_Permutation, SortLclPkgs_Permutation.
  - rewrite blocksOf_fst. apply sortedStages_sorted.
  - intros s. rewrite blocksOf_fst, elem_of_sortedStages, buildStageMap_lookup.
    split.
    + intros Hsome. destruct (filter _ _) as [|f fs] eqn:Hf.
      { by destruct Hsome. }
      assert (f ∈ filter (λ f, stage f = s) (ranged rng 0 pkgs)) as Hin.
      { rewrite Hf. left. }
      apply list_elem_of_filter in Hin as [Hst Hin].
      exists f. split; [|done]. by rewrite <- (ranged_registered rng 0 pkgs Hv).
    + intros (f & Hin & Hst).
      rewrite <- (ranged_registered rng 0 pkgs Hv) in Hin.
      assert (f ∈ filter (λ f, stage f = s) (ranged rng 0 pkgs)) as Hin'.
      { by apply list_elem_of_filter. }
      destruct (filter _ _); [by apply elem_of_nil in Hin'|done].
  - intros s fs Hin. unfold blocksOf in Hin.
    apply list_elem_of_fmap in Hin as (s' & [= -> ->] & _).
    rewrite Hlook. by rewrite (ranged_registered rng 0 pkgs Hv).
Qed.

Lemma valid_range_fwd `{Countable K} {V} : valid_order (@range_fwd K _ _ V).
Proof. by intros m. Qed.

Lemma valid_range_rev `{Countable K} {V} : valid_order (@range_rev K _ _ V).
Proof. intros m. unfold range_rev. by rewrite reverse_Permutation. Qed.

Lemma write_stage_blocks_witness :
  valid_ranges (λ _, range_fwd) ∧
  ∃ (protos : list string) (blocks : list (Z * list initFunc)),
    write "" (λ _, range_fwd) [examples.pkgB; examples.pkgA] false "" =
      "" +:+ "" +:+ guard false
        +:+ concat_str (prototype <$> protos)
        +:+ nl
        +:+ ("void" +:+ nl +:+ fnName false +:+ "(void)" +:+ nl +:+ "{" +:+ nl)
        +:+ concat_str (stageBlock <$> blocks)
        +:+ ("}" +:+ nl +:+ nl) +:+ ("#endif" +:+ nl)
    ∧ protos ≡ₚ name <$> registered [examples.pkgB; examples.pkgA]
    ∧ StronglySorted Z.lt blocks.*1
    ∧ (∀ s, s ∈ blocks.*1 ↔
            ∃ f, f ∈ registered [examples.pkgB; examples.pkgA] ∧ stage f = s)
    ∧ (∀ s fs, (s, fs) ∈ blocks →
         fs ≡ₚ filter (λ f, stage f = s) (registered [examples.pkgB; examples.pkgA])).
Proof.
  split.
  - intros n. apply valid_range_fwd.
  - apply (write_stage_blocks "" (λ _, range_fwd) [examples.pkgB; examples.pkgA] false "").
    intros n. apply valid_range_fwd.
Defined.

(** The scenario of the specification: B comes first in the list, and yet
    the call of [a_init] (stage 10) precedes the call of [b_init] (stage 20);
    both have a prototype.  The text is the same for every order that the
    loops over the maps may take. *)
Lemma write_scenario (P : string) (rng : Ranges) :
  valid_ranges rng →
  write P rng [examples.pkgB; examples.pkgA] false "" =
  P +:+ examples.lines
    [ "#if !SPLIT_LOADER"; "";
      "void a_init(void);";
      "void b_init(void);";
      "";
      "void";
      "sysinit_app(void)";
      "{";
      "";
      "    /*** Stage 10 */";
      "    /* 10.0: A */";
      "    a_init();";
      "";
      "    /*** Stage 20 */";
      "    /* 20.0: B */";
      "    b_init();";
      "}";
      "";
      "#endif" ].
Proof.
  intros Hv.
  assert (Hone : ∀ n (k : string) (v : Z), rng n {[ k := v ]} = [(k, v)]).
  { intros n k v. apply Permutation_singleton_r.
    rewrite (Hv n {[ k := v ]}). by rewrite map_to_list_singleton. }
  rewrite write_spec. unfold buildStageMap. rewrite buildStageMap_from_ranged.
  replace (pkg.SortLclPkgs [examples.pkgB; examples.pkgA])
    with [examples.pkgA; examples.pkgB] by (vm_compute; reflexivity).
  simpl ranged. unfold examples.pkgA, examples.pkgB, examples.package. simpl.
  rewrite !Hone. rewrite str_app_nil_l.
  apply (f_equal (String.append P)). by vm_compute.
Qed.

(** [write] only appends to the writer, and its text starts with the
    preamble. *)
Lemma write_app (P : string) rng pkgs isLoader w :
  write P rng pkgs isLoader w = w +:+ P +:+ write "" rng pkgs isLoader "".
Proof. by rewrite !write_spec. Qed.

(** C1.  The generated text depends on the order in which the [range] loops
    of [buildStageMap] and [writePrototypes] visit the entry points of a
    package, which Go leaves unspecified: for the package with two entry
    points, two admissible orders yield two different texts from the same
    packages and the same build variant. *)
Theorem write_depends_on_range_order (P w : string) :
  valid_ranges (λ _, range_fwd) ∧ valid_ranges (λ _, range_rev) ∧
  write P (λ _, range_fwd) [examples.pkgTwo] false w ≠
  write P (λ _, range_rev) [examples.pkgTwo] false w.
Proof.
  split; [intros n; apply valid_range_fwd|].
  split; [intros n; apply valid_range_rev|].
  rewrite (write_app P (λ _, range_fwd)), (write_app P (λ _, range_rev)).
  intros Heq. apply (inj (String.app w)), (inj (String.app P)) in Heq.
  vm_compute in Heq. discriminate Heq.
Qed.

(** The two texts of the previous theorem, side by side. *)
Lemma write_pkgTwo_fwd :
  write "" (λ _, range_fwd) [examples.pkgTwo] false "" =
  examples.lines
    [ "#if !SPLIT_LOADER"; "";
      "void a_init(void);"; "void b_init(void);"; "";
      "void"; "sysinit_app(void)"; "{"; "";
      "    /*** Stage 1 */";
      "    /* 1.0: sys */"; "    a_init();";
      "    /* 1.1: sys */"; "    b_init();";
      "}"; ""; "#endif" ].
Proof. by vm_compute. Qed.

Lemma write_pkgTwo_rev :
  write "" (λ _, range_rev) [examples.pkgTwo] false "" =
  examples.lines
    [ "#if !SPLIT_LOADER"; "";
      "void b_init(void);"; "void a_init(void);"; "";
      "void"; "sysinit_app(void)"; "{"; "";
      "    /*** Stage 1 */";
      "    /* 1.0: sys */"; "    b_init();";
      "    /* 1.1: sys */"; "    a_init();";
      "}"; ""; "#endif" ].
Proof. by vm_compute. Qed.

(** ** The write step *)

Lemma writeRequired_absent fs contents path :
  disk.ReadFile fs path = inl disk.ENOENT →
  writeRequired fs contents path = (true, None).
Proof. unfold writeRequired. by intros ->. Qed.

Lemma writeRequired_present fs contents path old :
  disk.ReadFile fs path = inr old →
  writeRequired fs contents path = (bool_decide (old ≠ contents), None).
Proof.
  unfold writeRequired. intros ->. f_equal.
  by repeat case_bool_decide.
Qed.

Ltac disk_cases :=
  repeat first
    [ progress simplify_map_eq/=
    | case_match
    | case_decide
    | case_bool_decide ];
  try done.

Lemma ensureWrittenAt_again (Dir : string → string)
    (contents path : string) (fs fs1 : disk.FS) (err1 : option NewtError) :
  ensureWrittenAt Dir contents path fs = (fs1, err1) →
  (disk.ReadFile fs path = inl disk.ENOENT →
     writeRequired fs contents path = (true, None))
  ∧ (∀ old, disk.ReadFile fs path = inr old →
       writeRequired fs contents path = (bool_decide (old ≠ contents), None))
  ∧ (disk.ReadFile fs path = inr contents → fs1 = fs ∧ err1 = None)
  ∧ (fs1 ≠ fs → disk.ReadFile fs path ≠ inr contents)
  ∧ (err1 = None → disk.ReadFile fs1 path = inr contents)
  ∧ (ensureWrittenAt Dir contents path fs1).1 = fs1
  ∧ (err1 = None → ensureWrittenAt Dir contents path fs1 = (fs1, None)).
Proof.
  intros Hrun.
  split; [apply writeRequired_absent|].
  split; [apply writeRequired_present|].
  assert (Hsame : disk.ReadFile fs path = inr contents → fs1 = fs ∧ err1 = None).
  { intros Hread. unfold ensureWrittenAt, writeRequired in Hrun.
    rewrite Hread in Hrun. rewrite bool_decide_eq_true_2 in Hrun by done.
    simpl in Hrun. by simplify_eq. }
  split; [done|].
  split; [intros Hne Hread; by destruct (Hsame Hread)|].
  assert (Hdone : err1 = None → disk.ReadFile fs1 path = inr contents).
  { intros ->. revert Hrun.
    unfold ensureWrittenAt, writeRequired, disk.ReadFile, disk.MkdirAll,
      disk.WriteFile, disk.setNode.
    destruct fs as [nodes frozen]; simpl. generalize (Dir path). intros d Hrun.
    destruct (decide (d = path)) as [->|Hne]; disk_cases. }
  split; [done|].
  assert (Hagain : err1 = None → ensureWrittenAt Dir contents path fs1 = (fs1, None)).
  { intros He. specialize (Hdone He).
    unfold ensureWrittenAt, writeRequired. rewrite Hdone.
    by rewrite bool_decide_eq_true_2. }
  split; [|done].
  destruct err1 as [e|]; [|by rewrite Hagain].
  clear Hsame Hdone Hagain. revert Hrun.
  unfold ensureWrittenAt, writeRequired, disk.ReadFile, disk.MkdirAll,
    disk.WriteFile, disk.setNode.
  destruct fs as [nodes frozen]; simpl. generalize (Dir path). intros d Hrun.
    destruct (decide (d = path)) as [->|Hne]; disk_cases.
Qed.

(** C3.  The write step reads the file at the path: a file that does not
    exist requires a write, a file that is read requires one exactly when its
    bytes differ from the content; nothing in the store changes when the
    bytes are equal; a step that ends without error leaves the content in the
    file; and a second step with the same content and path changes nothing
    in the store, reporting no error when the first reported none. *)
Theorem ensureWritten_idempotent (Dir : string → string)
    (contents path : string) (fs fs1 : disk.FS) (err1 : option NewtError) :
  ensureWrittenAt Dir contents path fs = (fs1, err1) →
  (disk.ReadFile fs path = inl disk.ENOENT →
     writeRequired fs contents path = (true, None))
  ∧ (∀ old, disk.ReadFile fs path = inr old →
       writeRequired fs contents path = (bool_decide (old ≠ contents), None))
  ∧ (disk.ReadFile fs path = inr contents → fs1 = fs ∧ err1 = None)
  ∧ (fs1 ≠ fs → disk.ReadFile fs path ≠ inr contents)
  ∧ (err1 = None → disk.ReadFile fs1 path = inr contents)
  ∧ (ensureWrittenAt Dir contents path fs1).1 = fs1
  ∧ (err1 = None → ensureWrittenAt Dir contents path fs1 = (fs1, None)).
Proof. apply ensureWrittenAt_again. Qed.

Lemma ensureWritten_idempotent_witness :
  let fs1 := (ensureWrittenAt (λ _, "src") "void" "src/t-sysinit-app.c"
                (disk.mkFS ∅ ∅)).1 in
  disk.ReadFile fs1 "src/t-sysinit-app.c" = inr "void"
  ∧ ensureWrittenAt (λ _, "src") "void" "src/t-sysinit-app.c" fs1 = (fs1, None).
Proof.
  intros fs1.
  assert (Hrun : ensureWrittenAt (λ _, "src") "void" "src/t-sysinit-app.c"
                   (disk.mkFS ∅ ∅) = (fs1, None)) by (vm_compute; reflexivity).
  destruct (ensureWritten_idempotent _ _ _ _ _ _ Hrun)
    as (_ & _ & _ & _ & Hfile & _ & Hagain).
  split; [by apply Hfile|by apply Hagain].
Defined.

(** [EnsureWritten] run again with the orders of the first run: the store is
    left as the first run left it. *)
Lemma EnsureWritten_twice (P : string) (Dir : string → string) rng pkgs
    srcDir targetName isLoader fs :
  let fs1 := (EnsureWritten P Dir rng pkgs srcDir targetName isLoader fs).1 in
  (EnsureWritten P Dir rng pkgs srcDir targetName isLoader fs1).1 = fs1.
Proof.
  intros fs1. unfold EnsureWritten in *.
  destruct (ensureWrittenAt Dir (write P rng pkgs isLoader "")
              (sysinitPath srcDir targetName isLoader) fs) as [fs' err] eqn:Hrun.
  by destruct (ensureWrittenAt_again _ _ _ _ _ _ Hrun)
    as (_ & _ & _ & _ & _ & Hagain & _).
Qed.

(** ** The package store: save and load *)

Lemma str_length_app (a b : string) :
  String.length (a +:+ b) = String.length a + String.length b.
Proof. induction a as [|x a IH]; [done|]. rewrite str_app_cons. simpl. by rewrite IH. Qed.

Lemma str_app_ne (a b : string) : b ≠ "" → a ≠ a +:+ b.
Proof.
  intros Hb Heq. apply (f_equal String.length) in Heq.
  rewrite str_length_app in Heq. destruct b; [done|]. simpl in Heq. lia.
Qed.

Lemma WriteString_lookup fs path s :
  disk.nodes (disk.WriteString fs path s) !! path =
  match disk.nodes fs !! path with
  | Some (disk.File data r) => Some (disk.File (data +:+ s) r)
  | other => other
  end.
Proof.
  unfold disk.WriteString. destruct (disk.nodes fs !! path) as [[data r|]|] eqn:Hp;
    simpl; by rewrite ?lookup_insert_eq, ?Hp.
Qed.

Lemma Create_file fs fs' path :
  disk.Create fs path = (fs', None) →
  ∃ r, disk.nodes fs' !! path = Some (disk.File "" r).
Proof.
  unfold disk.Create, disk.WriteFile, disk.setNode.
  repeat case_match; intros [= <-]; simpl; rewrite lookup_insert_eq; eauto.
Qed.

(** C9.  When [Save] ends without error, the descriptor file of the package
    holds the title comment, an empty line, and then one line for each of the
    fields pkg.name, pkg.vers, pkg.type, pkg.description, pkg.author,
    pkg.homepage and pkg.repository, in this order, each with the value taken
    from the package. *)
Theorem Save_field_order (typeNames : gmap Z string) (p : pkg.LocalPackage)
    (fs fs' : disk.FS) :
  pkg.Save typeNames p fs = (fs', None) →
  (∃ r, disk.nodes fs' !! descriptorPath p
        = Some (disk.File (renderDescriptor typeNames p) r))
  ∧ (descriptorFields typeNames p).*1 =
      [ "pkg.name"; "pkg.vers"; "pkg.type"; "pkg.description"; "pkg.author";
        "pkg.homepage"; "pkg.repository" ].
Proof.
  intros Hsave. split; [|done].
  unfold pkg.Save in Hsave.
  destruct (disk.MkdirAll fs (pkg.BasePath p)) as [fs0 [e|]]; [done|].
  destruct (disk.Create fs0 _) as [fs1 [e|]] eqn:Hc; [done|].
  apply Create_file in Hc as [r Hr]. exists r.
  injection Hsave as <-. unfold descriptorPath.
  rewrite !WriteString_lookup, Hr. do 2 f_equal.
  unfold renderDescriptor, descriptorFields, fieldLine.
  simpl. by rewrite ?str_app_nil_l, ?str_app_assoc, ?str_app_nil_r.
Qed.

Lemma Save_field_order_witness :
  let p := examples.package "libs/os" ∅ in
  let fs' := (pkg.Save examples.typeNames p (disk.mkFS ∅ ∅)).1 in
  disk.ReadFile fs' "repo/libs/os//pkg.yml" =
  inr (examples.lines
         [ "### Package: libs/os"; "";
           "pkg.name: libs/os"; "pkg.vers: 0.0.0"; "pkg.type: lib";
           "pkg.description: "; "pkg.author: "; "pkg.homepage: ";
           "pkg.repository: local" ]).
Proof.
  intros p fs'.
  assert (Hsave : pkg.Save examples.typeNames p (disk.mkFS ∅ ∅) = (fs', None))
    by (vm_compute; reflexivity).
  destruct (Save_field_order _ _ _ _ Hsave) as [[r Hr] _].
  unfold disk.ReadFile.
  change "repo/libs/os//pkg.yml" with (descriptorPath p).
  rewrite Hr. destruct r; [by vm_compute|].
  exfalso. revert Hr. by vm_compute.
Defined.

Lemma matchType_unknown typeString entries dflt :
  (∀ t, (t, typeString) ∉ entries) →
  pkg.matchType typeString entries dflt = dflt.
Proof.
  induction entries as [|[t n] es IH]; intros Hno; [done|]. simpl.
  destruct (decide (typeString = n)) as [->|Hne].
  - exfalso. apply (Hno t). left.
  - apply IH. intros t' Hin. apply (Hno t'). by right.
Qed.

Lemma matchType_known typeString entries dflt :
  (∃ t, (t, typeString) ∈ entries) →
  (pkg.matchType typeString entries dflt, typeString) ∈ entries.
Proof.
  induction entries as [|[t n] es IH]; intros [t' Hin].
  - by apply elem_of_nil in Hin.
  - simpl. destruct (decide (typeString = n)) as [->|Hne]; [left|].
    right. apply IH. exists t'.
    apply elem_of_cons in Hin as [[= -> ->]|Hin]; [done|done].
Qed.

Lemma elem_of_order `{Countable K} {V} (o : RangeOrder K V) (m : gmap K V) k v :
  valid_order o → (k, v) ∈ o m ↔ m !! k = Some v.
Proof. intros Hv. rewrite (Hv m). apply elem_of_map_to_list. Qed.

(** C6.  For a descriptor that is read and whose version parses, [Load] ends
    without error, whatever the type string and whatever the order of the
    loop over the type names.  A type string that is the name of no type
    leaves the package with the default library type; a type string that is
    the name of a type gives the package a type of that name, which is the
    type [t] itself when no other type bears the name. *)
Theorem Load_type_fails_open (typeNames : gmap Z string) (LIB : pkg.PackageType)
    (ReadYaml : string → option (gmap string pkg.Value))
    (LoadVersion : string → NewtError + pkg.Version)
    (typeOrder : RangeOrder Z string)
    (dir : tree.Node) (p : pkg.LocalPackage)
    (v : gmap string pkg.Value) (ver : pkg.Version) :
  valid_order typeOrder →
  pkg.ReadConfig ReadYaml dir = inr v →
  LoadVersion (pkg.GetString v "pkg.vers") = inr ver →
  ∃ p', pkg.Load typeNames LIB ReadYaml LoadVersion typeOrder dir p = (p', None)
    ∧ ((∀ t, typeNames !! t ≠ Some (pkg.GetString v "pkg.type")) →
         pkg.packageType p' = LIB)
    ∧ ((∃ t, typeNames !! t = Some (pkg.GetString v "pkg.type")) →
         typeNames !! pkg.packageType p' = Some (pkg.GetString v "pkg.type"))
    ∧ (∀ t, typeNames !! t = Some (pkg.GetString v "pkg.type") →
         (∀ t', typeNames !! t' = Some (pkg.GetString v "pkg.type") → t' = t) →
         pkg.packageType p' = t).
Proof.
  intros Hv Hcfg Hver. unfold pkg.Load. rewrite Hcfg. simpl. rewrite Hver.
  eexists. split; [done|]. simpl.
  assert (Hknown : (∃ t, typeNames !! t = Some (pkg.GetString v "pkg.type")) →
    typeNames !! pkg.matchType (pkg.GetString v "pkg.type") (typeOrder typeNames) LIB
    = Some (pkg.GetString v "pkg.type")).
  { intros [t Ht]. apply (elem_of_order typeOrder); [done|].
    apply matchType_known. exists t. by apply (elem_of_order typeOrder). }
  split; [|split; [done|]].
  - intros Hno. apply matchType_unknown. intros t Hin.
    apply (elem_of_order typeOrder) in Hin; [|done]. by apply (Hno t).
  - intros t Ht Huniq. apply Huniq, Hknown. eauto.
Qed.

(** ** Discovery *)

Lemma Node_ind' (P : tree.Node → Prop) :
  (∀ data r, P (tree.File data r)) →
  (∀ es r, Forall (λ e, P e.2) es → P (tree.Dir es r)) →
  ∀ n, P n.
Proof.
  intros Hf Hd. fix IH 1. intros [data r|es r]; [apply Hf|].
  apply Hd. induction es as [|[nm n] es IHes]; constructor; [apply IH|apply IHes].
Qed.

Section discovery_facts.
Variable typeNames : gmap Z string.
Variable LIB : pkg.PackageType.
Variable ReadYaml : string → option (gmap string pkg.Value).
Variable LoadVersion : string → NewtError + pkg.Version.
Variable Clean : string → string.
Variable typeOrder : RangeOrder Z string.
Variable r : pkg.Repo.

Abbreviation RLPR := (pkg.ReadLocalPackageRecursive typeNames LIB ReadYaml LoadVersion
                    Clean typeOrder r).
Abbreviation walkEnts := (walkEntries typeNames LIB ReadYaml LoadVersion Clean typeOrder r).
Abbreviation loadAt' := (loadAt typeNames LIB ReadYaml LoadVersion Clean typeOrder r).
Abbreviation loads' := (loads typeNames LIB ReadYaml LoadVersion Clean typeOrder r).

Lemma RLPR_unfold m bp pn es :
  RLPR m bp pn (tree.Dir es true) =
  match walkEnts m bp pn es with
  | (pkgList, Some err) => (pkgList, Some err)
  | (pkgList, None) =>
      match tree.lookup es pkg.PACKAGE_FILE_NAME with
      | None => (pkgList, None)
      | Some _ =>
          match pkg.LoadLocalPackage typeNames LIB ReadYaml LoadVersion Clean
                  typeOrder r (bp +:+ "/" +:+ pn) (tree.Dir es true) with
          | (_, Some err) => (pkgList, Some err)
          | (p, None) => (<[pkg.Name p := p]> pkgList, None)
          end
      end
  end.
Proof.
  cbn [pkg.ReadLocalPackageRecursive].
  match goal with
  | |- (let (_, _) := ?f es m in _) = _ =>
      assert (Hloop : ∀ es m, f es m = walkEnts m bp pn es)
  end.
  { clear. intros es. induction es as [|[nm n] es IH]; intros m; [done|].
    simpl. destruct (negb (tree.IsDir n)); [apply IH|].
    destruct (pkg.LocalPackageSpecialName nm || HasPrefix nm "."); [apply IH|].
    destruct (RLPR m bp (pn +:+ "/" +:+ nm) n) as [m' [e|]]; [done|apply IH]. }
  by rewrite Hloop.
Qed.

Lemma loadSites_unfold bp pn es :
  loadSites bp pn (tree.Dir es true) =
  sitesBelow bp pn es ++ ownSite (bp +:+ "/" +:+ pn) es.
Proof.
  simpl. f_equal. induction es as [|[nm n] es IH]; [done|]. simpl. by rewrite IH.
Qed.

Lemma listable_unfold es : listable (tree.Dir es true) = listableBelow es.
Proof. simpl. induction es as [|[nm n] es IH]; [done|]. simpl. by rewrite IH. Qed.

Lemma loads_app s1 s2 L :
  loads' (s1 ++ s2) = Some L ↔
  ∃ L1 L2, loads' s1 = Some L1 ∧ loads' s2 = Some L2 ∧ L = L1 ++ L2.
Proof.
  revert L. induction s1 as [|s s1 IH]; intros L; simpl.
  - split; [intros H; by exists [], L|]. by intros (L1 & L2 & [= <-] & -> & ->).
  - destruct (loadAt' s) as [p|]; [|split; [done|by intros (?&?&?&_)]].
    destruct (loads' (s1 ++ s2)) as [L'|] eqn:HL'.
    + destruct (proj1 (IH L') eq_refl) as (L1 & L2 & -> & H2 & ->).
      split.
      * intros [= <-]. by exists (p :: L1), L2.
      * intros (L1' & L2' & [= <-] & H2' & ->). rewrite H2 in H2'. by simplify_eq.
    + split; [done|]. intros (L1' & L2' & H1 & H2 & ->).
      destruct (loads' s1) as [L1|]; [|done]. simplify_eq.
      assert (None = Some (L1 ++ L2')) as Hbad; [|done].
      apply IH. eauto.
Qed.

Definition discovers (dir : tree.Node) : Prop :=
  ∀ m bp pn m',
    RLPR m bp pn dir = (m', None) ↔
    listable dir = true ∧
    ∃ L, loads' (loadSites bp pn dir) = Some L ∧ m' = foldl insertPkg m L.

Lemma walkEntries_spec es :
  Forall (λ e, discovers e.2) es →
  ∀ m bp pn m',
    walkEnts m bp pn es = (m', None) ↔
    listableBelow es = true ∧
    ∃ L, loads' (sitesBelow bp pn es) = Some L ∧ m' = foldl insertPkg m L.
Proof.
  induction 1 as [|[nm n] es Hn Hes IH]; intros m bp pn m'; simpl.
  - split; [intros [= <-]; split; [done|by exists []]|].
    by intros (_ & L & [= <-] & ->).
  - unfold entered. destruct (tree.IsDir n); simpl; [|apply IH].
    destruct (pkg.LocalPackageSpecialName nm || HasPrefix nm "."); simpl; [apply IH|].
    simpl in Hn. specialize (Hn m bp (pn +:+ "/" +:+ nm)).
    destruct (RLPR m bp (pn +:+ "/" +:+ nm) n) as [m1 [e|]].
    + split; [done|]. intros (Hl & L & HL & ->).
      apply andb_true_iff in Hl as [Hl _].
      apply loads_app in HL as (L1 & L2 & HL1 & _ & _).
      assert (Hbad : (m1, Some e) = (foldl insertPkg m L1, None));
        [apply Hn; eauto|done].
    + destruct (proj1 (Hn m1) eq_refl) as (Hl & L1 & HL1 & ->).
      rewrite Hl. simpl. rewrite IH. split.
      * intros (Hl2 & L2 & HL2 & ->). split; [done|].
        exists (L1 ++ L2). rewrite foldl_app. split; [|done].
        apply loads_app. eauto.
      * intros (Hl2 & L & HL & ->). split; [done|].
        apply loads_app in HL as (L1' & L2 & HL1' & HL2 & ->).
        rewrite HL1 in HL1'. simplify_eq. exists L2. by rewrite foldl_app.
Qed.

Lemma RLPR_spec dir : discovers dir.
Proof.
  induction dir as [data rd|es rd IH] using Node_ind'; intros m bp pn m'.
  - simpl. split; [done|by intros [? _]].
  - destruct rd; [|simpl; split; [done|by intros [? _]]].
    rewrite RLPR_unfold, loadSites_unfold, listable_unfold.
    pose proof (walkEntries_spec es IH m bp pn) as Hw.
    destruct (walkEnts m bp pn es) as [m1 [e|]].
    + split; [done|]. intros (Hl & L & HL & ->).
      apply loads_app in HL as (L1 & L2 & HL1 & _ & _).
      assert (Hbad : (m1, Some e) = (foldl insertPkg m L1, None));
        [apply Hw; eauto|done].
    + destruct (proj1 (Hw m1) eq_refl) as (Hl & L1 & HL1 & ->).
      unfold ownSite. destruct (tree.lookup es pkg.PACKAGE_FILE_NAME) as [f|].
      * pose proof (loads_app (sitesBelow bp pn es) [(bp +:+ "/" +:+ pn, tree.Dir es true)])
          as Happ.
        simpl in Happ. unfold loadAt in Happ. simpl in Happ.
        destruct (pkg.LoadLocalPackage _ _ _ _ _ _ _ _ _) as [p [e|]].
        -- split; [done|]. intros (_ & L & HL & _).
           apply Happ in HL as (?&?&_&?&_). done.
        -- split.
           ++ intros [= <-]. split; [done|]. exists (L1 ++ [p]).
              rewrite foldl_app. split; [|done]. apply Happ. eauto.
           ++ intros (_ & L & HL & ->).
              apply Happ in HL as (L1' & L2 & HL1' & [= <-] & ->).
              rewrite HL1 in HL1'. simplify_eq. by rewrite foldl_app.
      * rewrite app_nil_r. split.
        -- intros [= <-]. eauto.
        -- intros (_ & L & HL & ->). rewrite HL1 in HL. by simplify_eq.
Qed.


Abbreviation readSubDirs' := (pkg.readSubDirs typeNames LIB ReadYaml LoadVersion
                              Clean typeOrder r).
Abbreviation readSearchPaths' := (pkg.readSearchPaths typeNames LIB ReadYaml
                                  LoadVersion Clean typeOrder).
Abbreviation ReadLocalPackages' := (pkg.ReadLocalPackages typeNames LIB ReadYaml
                                    LoadVersion Clean typeOrder).

Lemma readSubDirs_spec dirList m pkgDir m' :
  readSubDirs' m pkgDir dirList = (m', None) ↔
  rootListable dirList = true ∧
  ∃ L, loads' (rootSites pkgDir dirList) = Some L ∧ m' = foldl insertPkg m L.
Proof.
  revert m m'. induction dirList as [|[nm n] es IH]; intros m m'; simpl.
  - split; [intros [= <-]; split; [done|by exists []]|].
    by intros (_ & L & [= <-] & ->).
  - unfold topEntered.
    destruct (HasPrefix nm "." || HasPrefix nm ".."); simpl; [apply IH|].
    destruct (tree.IsDir n); simpl; [|apply IH].
    pose proof (RLPR_spec n m pkgDir nm) as Hn.
    destruct (RLPR m pkgDir nm n) as [m1 [e|]].
    + split; [done|]. intros (Hl & L & HL & ->).
      apply andb_true_iff in Hl as [Hl _].
      apply loads_app in HL as (L1 & L2 & HL1 & _ & _).
      assert (Hbad : (m1, Some e) = (foldl insertPkg m L1, None));
        [apply Hn; eauto|done].
    + destruct (proj1 (Hn m1) eq_refl) as (Hl & L1 & HL1 & ->).
      rewrite Hl. simpl. rewrite IH. split.
      * intros (Hl2 & L2 & HL2 & ->). split; [done|].
        exists (L1 ++ L2). rewrite foldl_app. split; [|done].
        apply loads_app. eauto.
      * intros (Hl2 & L & HL & ->). split; [done|].
        apply loads_app in HL as (L1' & L2 & HL1' & HL2 & ->).
        rewrite HL1 in HL1'. simplify_eq. exists L2. by rewrite foldl_app.
Qed.

Lemma readSearchPaths_spec mnt searchPaths m basePath m' :
  readSearchPaths' mnt r m basePath searchPaths = (m', None) ↔
  searchListable mnt basePath searchPaths = true ∧
  ∃ L, loads' (searchSites mnt basePath searchPaths) = Some L
       ∧ m' = foldl insertPkg m L.
Proof.
  revert m m'. induction searchPaths as [|path rest IH]; intros m m'; simpl.
  - split; [intros [= <-]; split; [done|by exists []]|].
    by intros (_ & L & [= <-] & ->).
  - destruct (mnt (basePath +:+ "/" +:+ path)) as [[nm node]|]; [|apply IH].
    destruct node as [data rd|dirList [|]]; simpl;
      try (split; [done|by intros [? _]]).
    pose proof (readSubDirs_spec dirList m (basePath +:+ "/" +:+ path)) as Hn.
    destruct (readSubDirs' m (basePath +:+ "/" +:+ path) dirList) as [m1 [e|]].
    + split; [done|]. intros (Hl & L & HL & ->).
      apply andb_true_iff in Hl as [Hl _].
      apply loads_app in HL as (L1 & L2 & HL1 & _ & _).
      assert (Hbad : (m1, Some e) = (foldl insertPkg m L1, None));
        [apply Hn; eauto|done].
    + destruct (proj1 (Hn m1) eq_refl) as (Hl & L1 & HL1 & ->).
      rewrite Hl. simpl. rewrite IH. split.
      * intros (Hl2 & L2 & HL2 & ->). split; [done|].
        exists (L1 ++ L2). rewrite foldl_app. split; [|done].
        apply loads_app. eauto.
      * intros (Hl2 & L & HL & ->). split; [done|].
        apply loads_app in HL as (L1' & L2 & HL1' & HL2 & ->).
        rewrite HL1 in HL1'. simplify_eq. exists L2. by rewrite foldl_app.
Qed.

Lemma ReadLocalPackages_spec mnt basePath searchPaths m :
  ReadLocalPackages' mnt r basePath searchPaths = inr m ↔
  searchListable mnt basePath searchPaths = true ∧
  ∃ L, loads' (searchSites mnt basePath searchPaths) = Some L
       ∧ m = foldl insertPkg ∅ L.
Proof.
  unfold pkg.ReadLocalPackages.
  pose proof (readSearchPaths_spec mnt searchPaths ∅ basePath) as Hs.
  destruct (readSearchPaths' mnt r ∅ basePath searchPaths) as [m1 [e|]].
  - split; [done|]. intros (Hl & L & HL & ->).
    assert (Hbad : (m1, Some e) = (foldl insertPkg ∅ L, None));
      [apply Hs; eauto|done].
  - rewrite <- Hs. split; [by intros [= ->]|by intros [= ->]].
Qed.

End discovery_facts.

Lemma foldl_insertPkg_lookup (L : list pkg.LocalPackage)
    (m : gmap string pkg.LocalPackage) (n : string) :
  foldl insertPkg m L !! n =
  match last (filter (λ p, pkg.Name p = n) L) with
  | Some p => Some p
  | None => m !! n
  end.
Proof.
  revert m. induction L as [|p L IH]; intros m; [done|].
  simpl. rewrite IH, filter_cons. unfold insertPkg.
  destruct (decide (pkg.Name p = n)) as [<-|Hne].
  - rewrite lookup_insert_eq.
    destruct (filter _ L) as [|q qs] eqn:Hf; [done|].
    change (last (p :: q :: qs)) with (last (q :: qs)).
    by destruct (last (q :: qs)) eqn:Hl; [|by apply last_None in Hl].
  - by rewrite lookup_insert_ne.
Qed.

Lemma elem_of_sitesBelow bp pn es (site : string * tree.Node) :
  site ∈ sitesBelow bp pn es ↔
  ∃ name n, (name, n) ∈ es ∧ entered name n = true
            ∧ site ∈ loadSites bp (pn +:+ "/" +:+ name) n.
Proof.
  induction es as [|[nm n] es IH]; simpl.
  - split; [by intros ?%elem_of_nil|]. by intros (?&?&?%elem_of_nil&_).
  - rewrite elem_of_app, IH. split.
    + intros [Hin|(name & n' & Hin & He & Hs)].
      * destruct (entered nm n) eqn:He; [|by apply elem_of_nil in Hin].
        exists nm, n. split; [left|done].
      * exists name, n'. split; [by right|done].
    + intros (name & n' & Hin & He & Hs).
      apply elem_of_cons in Hin as [[= -> ->]|Hin].
      * left. by rewrite He.
      * right. eauto.
Qed.

Lemma loadSites_descends dir :
  ∀ bp pn (site : string * tree.Node),
    site ∈ loadSites bp pn dir ↔
    ∃ comps, descends dir comps site.2 ∧ hasDescriptor site.2
             ∧ site.1 = bp +:+ "/" +:+ joinPath pn comps.
Proof.
  induction dir as [data rd|es rd IH] using Node_ind'; intros bp pn site.
  - simpl. split; [by intros ?%elem_of_nil|].
    intros (comps & Hd & (es & Heq & _) & _). inversion Hd; congruence.
  - destruct rd.
    2:{ simpl. split; [by intros ?%elem_of_nil|].
        intros (comps & Hd & (es' & Heq & _) & _). inversion Hd; congruence. }
    rewrite loadSites_unfold, elem_of_app, elem_of_sitesBelow. split.
    + intros [(name & n & Hin & He & Hs)|Hown].
      * rewrite Forall_forall in IH.
        apply (IH (name, n)) in Hs as (comps & Hd & Hdesc & Hp);
          [|done].
        exists (name :: comps). split; [by econstructor|]. done.
      * unfold ownSite in Hown.
        destruct (tree.lookup es pkg.PACKAGE_FILE_NAME) as [f|] eqn:Hl;
          [|by apply elem_of_nil in Hown].
        apply list_elem_of_singleton in Hown as ->. exists []. simpl.
        split; [constructor|]. split; [|done]. exists es. eauto.
    + destruct site as [p d]. simpl.
      intros (comps & Hd & Hdesc & ->).
      inversion Hd as [|? name sub comps' ? Hin He Hd']; subst.
      * right. destruct Hdesc as (es' & [= <-] & [f Hf]).
        unfold ownSite. rewrite Hf. by apply list_elem_of_singleton.
      * left. exists name, sub. split; [done|]. split; [done|].
        rewrite Forall_forall in IH. apply (IH (name, sub)); [done|].
        exists comps'. done.
Qed.

Lemma elem_of_rootSites pkgDir dirList (site : string * tree.Node) :
  site ∈ rootSites pkgDir dirList ↔
  ∃ name sub comps, (name, sub) ∈ dirList ∧ topEntered name sub = true
    ∧ descends sub comps site.2 ∧ hasDescriptor site.2
    ∧ site.1 = pkgDir +:+ "/" +:+ joinPath name comps.
Proof.
  induction dirList as [|[nm n] es IH]; simpl.
  - split; [by intros ?%elem_of_nil|]. by intros (?&?&?&?%elem_of_nil&_).
  - rewrite elem_of_app, IH. split.
    + intros [Hin|(name & sub & comps & Hin & Hrest)].
      * destruct (topEntered nm n) eqn:He; [|by apply elem_of_nil in Hin].
        apply loadSites_descends in Hin as (comps & Hd & Hdesc & Hp).
        exists nm, n, comps. split; [left|done].
      * exists name, sub, comps. split; [by right|done].
    + intros (name & sub & comps & Hin & He & Hd & Hdesc & Hp).
      apply elem_of_cons in Hin as [[= -> ->]|Hin].
      * left. rewrite He. apply loadSites_descends. eauto.
      * right. exists name, sub, comps. eauto.
Qed.

Example discover_nested :
  examples.discover examples.nestedMount ["libs"] =
  inr (<["outer" := pkg.mkPkg examples.localRepo "outer" "repo/libs/outer/" 0%Z
                      (pkg.mkDesc "" "" "" []) (pkg.mkVersion "0.0.1")
                      (Some (examples.descriptor "outer" "lib")) ∅]>
       (<["inner" := pkg.mkPkg examples.localRepo "inner" "repo/libs/outer/inner/" 0%Z
                      (pkg.mkDesc "" "" "" []) (pkg.mkVersion "0.0.1")
                      (Some (examples.descriptor "inner" "lib")) ∅]> ∅)).
Proof. vm_compute. reflexivity. Qed.

(** C4, as the code has it.  Under a search directory, discovery enters
    every entry that is a directory and is not hidden, and below it every
    directory that is neither hidden nor reserved; whether a directory holds
    a descriptor plays no part in the descent ([descends]), so the recursion
    goes on below a package that was found.  When the run over the search
    directory ends without error, the descriptors that were loaded are those
    of exactly the directories so reached that hold a descriptor, the
    directories below a directory before the directory itself, and the
    packages enter the list in the order of the loads. *)
Theorem discovery_reaches_below_packages (typeNames : gmap Z string)
    (LIB : pkg.PackageType) (ReadYaml : string → option (gmap string pkg.Value))
    (LoadVersion : string → NewtError + pkg.Version) (Clean : string → string)
    (typeOrder : RangeOrder Z string) (r : pkg.Repo)
    (m m' : gmap string pkg.LocalPackage) (pkgDir : string)
    (dirList : list (string * tree.Node)) :
  pkg.readSubDirs typeNames LIB ReadYaml LoadVersion Clean typeOrder r
    m pkgDir dirList = (m', None) →
  (∃ L, loads typeNames LIB ReadYaml LoadVersion Clean typeOrder r
          (rootSites pkgDir dirList) = Some L
        ∧ m' = foldl insertPkg m L)
  ∧ (∀ path d, (path, d) ∈ rootSites pkgDir dirList ↔
       ∃ name sub comps,
         (name, sub) ∈ dirList ∧ topEntered name sub = true
         ∧ descends sub comps d ∧ hasDescriptor d
         ∧ path = pkgDir +:+ "/" +:+ joinPath name comps).
Proof.
  intros Hrun. apply readSubDirs_spec in Hrun as (_ & L & HL & ->).
  split; [eauto|]. intros path d. apply (elem_of_rootSites pkgDir dirList (path, d)).
Qed.

Lemma discovery_reaches_below_packages_witness :
  let dirList := [("outer", examples.packageDir "outer"
                              [("inner", examples.packageDir "inner" [])])] in
  ("repo/libs/outer/inner", examples.packageDir "inner" []) ∈
    rootSites "repo/libs" dirList
  ∧ ("repo/libs/outer",
     examples.packageDir "outer" [("inner", examples.packageDir "inner" [])]) ∈
    rootSites "repo/libs" dirList.
Proof.
  intros dirList.
  destruct (discovery_reaches_below_packages examples.typeNames 0%Z
              examples.readYaml examples.loadVersion examples.clean range_fwd
              examples.localRepo ∅
              (pkg.readSubDirs examples.typeNames 0%Z examples.readYaml
                 examples.loadVersion examples.clean range_fwd
                 examples.localRepo ∅ "repo/libs" dirList).1
              "repo/libs" dirList) as [_ Hsites].
  { vm_compute. reflexivity. }
  split; apply Hsites.
  - exists "outer", (examples.packageDir "outer"
                       [("inner", examples.packageDir "inner" [])]), ["inner"].
    split; [left|]. split; [done|]. split.
    + eapply descends_step; [left|done|constructor].
    + split; [|done]. eexists. split; [reflexivity|]. vm_compute. eauto.
  - exists "outer", (examples.packageDir "outer"
                       [("inner", examples.packageDir "inner" [])]), [].
    split; [left|]. split; [done|]. split; [constructor|].
    split; [|done]. eexists. split; [reflexivity|]. vm_compute. eauto.
Defined.

(** The claim C4 as it is worded fails: the package [outer] is found, and
    discovery still goes on below it and returns the package [inner], whose
    base directory lies inside that of [outer]. *)
Lemma discovery_stops_at_package_counterexample :
  ∃ m, examples.discover examples.nestedMount ["libs"] = inr m
       ∧ ¬ noNestedPackages m.
Proof.
  eexists. split; [apply discover_nested|].
  intros Hno. eapply (Hno "outer" "inner").
  - by rewrite lookup_insert_eq.
  - rewrite lookup_insert_ne by done. by rewrite lookup_insert_eq.
  - split; [done|]. by vm_compute.
Qed.

(** C10.  A discovery run ends without error exactly when every directory it
    reaches can be listed and every descriptor it meets loads; the names that
    the descriptors declare play no part in this.  The list it returns is
    then the list of the loaded packages, entered one after the other under
    their names: under a name, the list holds the package that was loaded
    last with this name, and no other. *)
Theorem discovery_same_name_last_wins (typeNames : gmap Z string)
    (LIB : pkg.PackageType) (ReadYaml : string → option (gmap string pkg.Value))
    (LoadVersion : string → NewtError + pkg.Version) (Clean : string → string)
    (typeOrder : RangeOrder Z string) (mnt : tree.Mount) (r : pkg.Repo)
    (basePath : string) (searchPaths : list string) :
  (∀ m, pkg.ReadLocalPackages typeNames LIB ReadYaml LoadVersion Clean typeOrder
          mnt r basePath searchPaths = inr m ↔
        searchListable mnt basePath searchPaths = true
        ∧ ∃ L, loads typeNames LIB ReadYaml LoadVersion Clean typeOrder r
                 (searchSites mnt basePath searchPaths) = Some L
               ∧ m = foldl insertPkg ∅ L)
  ∧ (∀ L n, foldl insertPkg ∅ L !! n = last (filter (λ p, pkg.Name p = n) L)).
Proof.
  split; [intros m; apply ReadLocalPackages_spec|].
  intros L n. rewrite foldl_insertPkg_lookup, lookup_empty.
  by destruct (last _).
Qed.

(** Two directories that declare the name [dup]: the run ends without error
    and the list holds the package of the second directory. *)
Example discover_duplicates :
  examples.discover examples.dupMount ["libs"] =
  inr {[ "dup" := pkg.mkPkg examples.localRepo "dup" "repo/libs/b/" 0%Z
                    (pkg.mkDesc "" "" "" []) (pkg.mkVersion "0.0.1")
                    (Some (examples.descriptor "dup" "lib")) ∅ ]}.
Proof. vm_compute. reflexivity. Qed.

Lemma discovery_same_name_last_wins_witness :
  ∃ L, loads examples.typeNames 0%Z examples.readYaml examples.loadVersion
         examples.clean range_fwd examples.localRepo
         (searchSites examples.dupMount "repo" ["libs"]) = Some L
       ∧ pkg.basePath <$> L = ["repo/libs/a/"; "repo/libs/b/"]
       ∧ pkg.Name <$> L = ["dup"; "dup"]
       ∧ pkg.basePath <$> (foldl insertPkg ∅ L !! "dup") = Some "repo/libs/b/".
Proof.
  destruct (discovery_same_name_last_wins examples.typeNames 0%Z
              examples.readYaml examples.loadVersion examples.clean range_fwd
              examples.dupMount examples.localRepo "repo" ["libs"])
    as [Hrun Hlast].
  destruct (proj1 (Hrun _) discover_duplicates) as (_ & L & HL & Hm).
  exists L. split; [done|].
  assert (HL' := HL). vm_compute in HL'. injection HL' as <-.
  split; [done|]. split; [done|]. rewrite Hlast. by vm_compute.
Defined.

Lemma Load_type_fails_open_witness :
  let dir := tree.Dir [("pkg.yml",
                        tree.File (examples.descriptorText "x" "bogus") true)] true in
  ∃ p', pkg.Load examples.typeNames 0%Z examples.readYaml examples.loadVersion
          range_rev dir pkg.zeroPackage = (p', None)
        ∧ pkg.packageType p' = 0%Z.
Proof.
  intros dir.
  destruct (Load_type_fails_open examples.typeNames 0%Z examples.readYaml
              examples.loadVersion range_rev dir pkg.zeroPackage
              (examples.descriptor "x" "bogus") (pkg.mkVersion "0.0.1"))
    as (p' & Hload & Hlib & _).
  - apply valid_range_rev.
  - vm_compute. reflexivity.
  - vm_compute. reflexivity.
  - exists p'. split; [done|]. apply Hlib. intros t.
    change (pkg.GetString (examples.descriptor "x" "bogus") "pkg.type") with "bogus".
    unfold examples.typeNames.
    rewrite !lookup_insert. repeat case_decide; by rewrite ?lookup_empty.
Defined.

(** ** Hash *)

(** C2 fails on the code.  [Hash] writes the name of a directory and the
    bytes of a file to the digest, and never the name of a file: the package
    directory with the file [a.c] and the one with the same file called [b.c]
    feed the same bytes (the directory name [p], then the content [x]) to the
    digest, and so have the same hash, whatever the digest function is. *)
Theorem Hash_omits_file_name (sha1_hex : string → string) :
  pkg.Hash sha1_hex examples.hashMountA examples.hashPkg
    = Returned (sha1_hex "px", None)
  ∧ pkg.Hash sha1_hex examples.hashMountB examples.hashPkg
    = Returned (sha1_hex "px", None).
Proof.
  unfold pkg.Hash.
  replace (pkg.hashInput examples.hashMountA examples.hashPkg)
    with (Returned ("px", @None pkg.WalkErr)) by (vm_compute; reflexivity).
  replace (pkg.hashInput examples.hashMountB examples.hashPkg)
    with (Returned ("px", @None pkg.WalkErr)) by (vm_compute; reflexivity).
  done.
Qed.

(** ** The syscfg listing *)

Lemma foldl_StatusMessage {A} (f : A → string) (l : list A) (out : list string) :
  foldl (λ out x, cli.StatusMessage out (f x)) out l = out ++ (f <$> l).
Proof.
  revert out. induction l as [|x l IH]; intros out; simpl.
  - by rewrite app_nil_r.
  - rewrite IH. unfold cli.StatusMessage. by rewrite <- app_assoc.
Qed.

Lemma printSetting_spec (entry : cli.CfgEntry) (out : list string) :
  cli.printSetting entry out =
  out ++ settingTexts entry
      ++ (if bool_decide (1 < length (cli.History entry))
          then overrideTexts entry else []).
Proof.
  unfold cli.printSetting, settingTexts, overrideTexts.
  case_bool_decide.
  - rewrite (foldl_StatusMessage (λ pt, pkg.Name (cli.Source pt) +:+ ", ")).
    unfold cli.StatusMessage. rewrite head_lookup.
    by rewrite <- !app_assoc.
  - unfold cli.StatusMessage. rewrite app_nil_r. by rewrite <- !app_assoc.
Qed.

Lemma printSetting_app (entry : cli.CfgEntry) (out : list string) :
  cli.printSetting entry out = out ++ cli.printSetting entry [].
Proof. by rewrite !printSetting_spec. Qed.

Lemma overridden_not_in_settingTexts (entry : cli.CfgEntry) :
  "    * Overridden: " ∉ settingTexts entry.
Proof.
  unfold settingTexts. intros Hin.
  repeat (apply elem_of_cons in Hin as [Heq|Hin]; [by vm_compute in Heq|]).
  by apply elem_of_nil in Hin.
Qed.

Lemma overriddenShown_iff (entry : cli.CfgEntry) :
  overriddenShown entry ↔ 1 < length (cli.History entry).
Proof.
  unfold overriddenShown. rewrite printSetting_spec, app_nil_l.
  case_bool_decide as Hlen.
  - split; [done|]. intros _. apply elem_of_app. right. left.
  - split; [|done]. rewrite app_nil_r.
    intros Hin. by apply overridden_not_in_settingTexts in Hin.
Qed.

(** C7, as the code has it.  A setting is shown as overridden exactly when
    its history has more than one point, that is, as soon as one point
    follows the default.  The override trail then lists the sources of the
    points after the first one, in order, and ends with the value of the
    first point as the default. *)
Theorem printSetting_overridden (entry : cli.CfgEntry) (out : list string) :
  cli.printSetting entry out =
    out ++ settingTexts entry
        ++ (if bool_decide (1 < length (cli.History entry))
            then overrideTexts entry else [])
  ∧ (overriddenShown entry ↔ 1 < length (cli.History entry)).
Proof. split; [apply printSetting_spec|apply overriddenShown_iff]. Qed.

(** The claim C7 as it is worded fails: with one point beyond the default,
    and not more than one, the setting is shown as overridden. *)
Lemma printSetting_overridden_counterexample :
  ¬ (overriddenShown examples.overriddenOnce ↔
     1 < length (cli.History examples.overriddenOnce) - 1).
Proof.
  intros [Hshown _].
  assert (Hlt : 1 < length (cli.History examples.overriddenOnce) - 1).
  { apply Hshown. apply overriddenShown_iff.
    unfold examples.overriddenOnce. simpl. lia. }
  unfold examples.overriddenOnce in Hlt. simpl in Hlt. lia.
Qed.

Example printSetting_overriddenOnce :
  cli.printSetting examples.overriddenOnce [] =
  [ "  * Setting: LOG_LEVEL" +:+ nl;
    "    * Description: Log level" +:+ nl;
    "    * Value: 1"; nl;
    "    * Overridden: "; "apps/blinky, "; "default=0" +:+ nl ].
Proof. vm_compute. reflexivity. Qed.

Lemma sort_Strings_sorted (l : list string) : StronglySorted String.le (sort_Strings l).
Proof. apply StronglySorted_merge_sort; apply _. Qed.

Lemma sort_Strings_Permutation (l : list string) : sort_Strings l ≡ₚ l.
Proof. apply merge_sort_Permutation. Qed.

Lemma foldl_printSetting cfg (names : list string) (out : list string) :
  foldl (λ out name, cli.printSetting (cli.setting cfg name) out) out names =
  out ++ concat ((λ name, cli.printSetting (cli.setting cfg name) []) <$> names).
Proof.
  revert out. induction names as [|n ns IH]; intros out; simpl.
  - by rewrite app_nil_r.
  - rewrite IH, (printSetting_app _ out). by rewrite <- app_assoc.
Qed.

Lemma printPkgCfg_spec pkgName cfg entries out :
  cli.printPkgCfg pkgName cfg entries out =
  out ++ listedGroup cfg (pkgName, cli.settingNames entries).
Proof.
  unfold cli.printPkgCfg, listedGroup, cli.StatusMessage.
  rewrite foldl_printSetting. simpl. by rewrite <- app_assoc.
Qed.

Lemma yamlPkgCfg_spec w pkgName cfg entries :
  cli.yamlPkgCfg w pkgName cfg entries =
  w +:+ yamlGroup cfg (pkgName, cli.settingNames entries).
Proof.
  unfold cli.yamlPkgCfg, yamlGroup.
  rewrite (foldl_Fprintf (yamlLine cfg)). unfold Fprintf. simpl.
  by rewrite !str_app_assoc.
Qed.


Lemma printPkgs_spec cfg m i pkgNames out :
  cli.printPkgs cfg m i pkgNames out =
  out ++ concat (imap (λ k g, (if bool_decide (0 < i + k) then [nl] else [])
                              ++ listedGroup cfg g) (groupsFor m pkgNames)).
Proof.
  revert i out. induction pkgNames as [|n ns IH]; intros i out; simpl.
  - by rewrite app_nil_r.
  - rewrite IH, printPkgCfg_spec. rewrite Nat.add_0_r.
    replace (imap ((λ k g, (if bool_decide (0 < i + k) then [nl] else [])
                           ++ listedGroup cfg g) ∘ S) (groupsFor m ns))
      with (imap (λ k g, (if bool_decide (0 < S i + k) then [nl] else [])
                         ++ listedGroup cfg g) (groupsFor m ns))
      by (apply imap_ext; intros k g _; simpl; by rewrite Nat.add_succ_r).
    unfold cli.StatusMessage.
    case_bool_decide; by rewrite <- ?app_assoc.
Qed.

Lemma yamlPkgs_spec cfg m i pkgNames buf :
  cli.yamlPkgs cfg m i pkgNames buf =
  buf +:+ concat_str (imap (λ k g, (if bool_decide (0 < i + k) then nl else "")
                                   +:+ yamlGroup cfg g) (groupsFor m pkgNames)).
Proof.
  revert i buf. induction pkgNames as [|n ns IH]; intros i buf; simpl.
  - by rewrite str_app_nil_r.
  - rewrite IH, yamlPkgCfg_spec. rewrite Nat.add_0_r.
    replace (imap ((λ k g, (if bool_decide (0 < i + k) then nl else "")
                           +:+ yamlGroup cfg g) ∘ S) (groupsFor m ns))
      with (imap (λ k g, (if bool_decide (0 < S i + k) then nl else "")
                         +:+ yamlGroup cfg g) (groupsFor m ns))
      by (apply imap_ext; intros k g _; simpl; by rewrite Nat.add_succ_r).
    unfold Fprintf.
    case_bool_decide; by rewrite ?str_app_nil_l, ?str_app_assoc.
Qed.

Lemma EntriesByPkg_lookup (settingsOrder : RangeOrder string cli.CfgEntry)
    (cfg : cli.Cfg) (pkgName : string) :
  cli.EntriesByPkg settingsOrder cfg !! pkgName =
  match filter (λ e, cli.originName e = pkgName)
               (settingsOrder (cli.Settings cfg)).*2 with
  | [] => None
  | es => Some es
  end.
Proof.
  unfold cli.EntriesByPkg.
  assert (Hgen : ∀ (kvs : list (string * cli.CfgEntry)) (m : gmap string (list cli.CfgEntry)),
    foldl (λ pkgEntries kv,
             <[cli.originName kv.2 :=
                 default [] (pkgEntries !! cli.originName kv.2) ++ [kv.2]]> pkgEntries)
          m kvs !! pkgName =
    match filter (λ e, cli.originName e = pkgName) kvs.*2 with
    | [] => m !! pkgName
    | e :: es => Some (default [] (m !! pkgName) ++ e :: es)
    end).
  { induction kvs as [|[k e] kvs IH]; intros m; [done|].
    simpl. rewrite IH, filter_cons. simpl.
    destruct (decide (cli.originName e = pkgName)) as [<-|Hne].
    - rewrite lookup_insert_eq. simpl.
      destruct (filter _ _); simpl; by rewrite <- ?app_assoc.
    - by rewrite lookup_insert_ne. }
  rewrite Hgen, lookup_empty. by destruct (filter _ _).
Qed.

Lemma elem_of_sortedPkgNames (m : gmap string (list cli.CfgEntry)) (n : string) :
  n ∈ cli.sortedPkgNames m ↔ is_Some (m !! n).
Proof.
  unfold cli.sortedPkgNames. rewrite sort_Strings_Permutation, list_elem_of_fmap.
  split.
  - intros [[k v] [-> Hin]]. apply elem_of_map_to_list in Hin. eauto.
  - intros [v Hv]. exists (n, v). split; [done|]. by apply elem_of_map_to_list.
Qed.

Lemma groupsOf_fst (m : gmap string (list cli.CfgEntry)) :
  (groupsOf m).*1 = cli.sortedPkgNames m.
Proof.
  unfold groupsOf. rewrite <- list_fmap_compose.
  induction (cli.sortedPkgNames m) as [|s ss IH]; [done|]. simpl. by f_equal.
Qed.

(** C8.  The listing and the yaml text show the same groups in the same
    order: one group for each package that is the origin of an entry, the
    groups in ascending order of the package names, and in a group the names
    of the entries of that origin in ascending order.  This holds for every
    order that the loop over the settings may take. *)
Theorem cfg_outputs_grouped_and_sorted (settingsOrder : RangeOrder string cli.CfgEntry)
    (targetName : string) (cfg : cli.Cfg) (out : list string) :
  valid_order settingsOrder →
  ∃ groups : list (string * list string),
    cli.printCfg settingsOrder targetName cfg out =
      out ++ errorTexts cfg ++ ["Syscfg for " +:+ targetName +:+ ":" +:+ nl]
          ++ concat (imap (λ k g, (if bool_decide (0 < k) then [nl] else [])
                                  ++ listedGroup cfg g) groups)
    ∧ cli.yamlCfg settingsOrder cfg out =
        (("syscfg.vals:" +:+ nl)
         +:+ concat_str (imap (λ k g, (if bool_decide (0 < k) then nl else "")
                                      +:+ yamlGroup cfg g) groups),
         out ++ errorTexts cfg)
    ∧ StronglySorted String.le groups.*1
    ∧ NoDup groups.*1
    ∧ (∀ pkgName, pkgName ∈ groups.*1 ↔
         ∃ e, e ∈ entriesOfCfg cfg ∧ cli.originName e = pkgName)
    ∧ (∀ g, g ∈ groups →
         StronglySorted String.le g.2
         ∧ g.2 ≡ₚ cli.Name <$> filter (λ e, cli.originName e = g.1) (entriesOfCfg cfg)).
Proof.
  intros Hv. exists (groupsOf (cli.EntriesByPkg settingsOrder cfg)).
  assert (Hperm : (settingsOrder (cli.Settings cfg)).*2 ≡ₚ entriesOfCfg cfg).
  { unfold entriesOfCfg. by rewrite (Hv (cli.Settings cfg)). }
  split; [|split; [|split; [|split; [|split]]]].
  - unfold cli.printCfg. rewrite printPkgs_spec. unfold errorTexts, cli.StatusMessage.
    fold (groupsOf (cli.EntriesByPkg settingsOrder cfg)).
    case_bool_decide; simpl; by rewrite <- ?app_assoc, ?app_nil_r.
  - unfold cli.yamlCfg. rewrite yamlPkgs_spec. unfold errorTexts, cli.StatusMessage, Fprintf.
    fold (groupsOf (cli.EntriesByPkg settingsOrder cfg)).
    rewrite str_app_nil_l. case_bool_decide; by rewrite ?app_nil_r.
  - rewrite groupsOf_fst. apply sort_Strings_sorted.
  - rewrite groupsOf_fst. unfold cli.sortedPkgNames.
    rewrite sort_Strings_Permutation. apply NoDup_fst_map_to_list.
  - intros pkgName. rewrite groupsOf_fst, elem_of_sortedPkgNames, EntriesByPkg_lookup.
    split.
    + intros Hsome. destruct (filter _ _) as [|e es] eqn:Hf; [by destruct Hsome|].
      assert (e ∈ filter (λ e, cli.originName e = pkgName)
                         (settingsOrder (cli.Settings cfg)).*2) as Hin
        by (rewrite Hf; left).
      apply list_elem_of_filter in Hin as [Ho Hin]. exists e.
      split; [by rewrite <- Hperm|done].
    + intros (e & Hin & Ho). rewrite <- Hperm in Hin.
      assert (e ∈ filter (λ e, cli.originName e = pkgName)
                         (settingsOrder (cli.Settings cfg)).*2) as Hin'
        by (by apply list_elem_of_filter).
      destruct (filter _ _); [by apply elem_of_nil in Hin'|done].
  - intros g Hg. unfold groupsOf in Hg.
    apply list_elem_of_fmap in Hg as (pkgName & -> & _). simpl.
    split; [apply sort_Strings_sorted|].
    unfold cli.settingNames. rewrite sort_Strings_Permutation.
    apply fmap_Permutation. unfold cli.entriesOf. rewrite EntriesByPkg_lookup.
    rewrite <- Hperm. by destruct (filter _ _).
Qed.

Lemma cfg_outputs_grouped_and_sorted_witness :
  valid_order (@range_rev string _ _ cli.CfgEntry)
  ∧ ∃ groups : list (string * list string),
      (cli.yamlCfg range_rev examples.sampleCfg []).1 =
        ("syscfg.vals:" +:+ nl)
        +:+ concat_str (imap (λ k g, (if bool_decide (0 < k) then nl else "")
                                     +:+ yamlGroup examples.sampleCfg g) groups)
      ∧ StronglySorted String.le groups.*1.
Proof.
  split; [apply valid_range_rev|].
  destruct (cfg_outputs_grouped_and_sorted range_rev "t" examples.sampleCfg []
              valid_range_rev) as (groups & _ & Hyaml & Hsorted & _).
  exists groups. rewrite Hyaml. split; [reflexivity|exact Hsorted].
Defined.

Example yamlCfg_sample :
  (cli.yamlCfg range_rev examples.sampleCfg []).1 =
  examples.lines
    [ "syscfg.vals:";
      "    ### sys/console";
      "    CONSOLE_TICKS: '1'";
      "";
      "    ### sys/log";
      "    LOG_CLI: '0'";
      "    LOG_LEVEL: '1'" ].
Proof. vm_compute. reflexivity. Qed.

(** ** Further properties of the hash *)

Lemma walk_unfold {S : Type}
    (fn : string → tree.Node → option disk.Errno → S → S * option pkg.WalkErr)
    (name : string) (info : tree.Node) (s : S) :
  pkg.walk fn name info s =
  match fn name info None s with
  | (s, Some err) =>
      if tree.IsDir info && pkg.isSkipDir err then (s, None) else (s, Some err)
  | (s, None) =>
      match info with
      | tree.File _ _ => (s, None)
      | tree.Dir _ false => fn name info (Some disk.EACCES) s
      | tree.Dir names true => walkList fn names s
      end
  end.
Proof.
  destruct info as [data r|names [|]]; try reflexivity.
  cbn [pkg.walk]. destruct (fn name (tree.Dir names true) None s) as [s1 [e|]];
    [reflexivity|].
  revert s1. induction names as [|[n fi] names IH]; intros s1.
  { reflexivity. }
  cbn [walkList]. destruct (pkg.walk fn n fi s1) as [s2 [e|]].
  { destruct (negb (tree.IsDir fi) || negb (pkg.isSkipDir e)); [reflexivity|apply IH]. }
  apply IH.
Qed.

Lemma hashAlike_dir es r es' r' :
  hashAlike (tree.Dir es r) (tree.Dir es' r') ↔ r = r' ∧ alikeList es es'.
Proof.
  simpl. apply and_iff_compat_l.
  revert es'. induction es as [|[n s] es IH]; intros [|[n' s'] es']; simpl;
    try done; try by rewrite IH.
Qed.

Lemma hashAlike_IsDir t t' : hashAlike t t' → tree.IsDir t = tree.IsDir t'.
Proof. by destruct t, t'. Qed.

Lemma walk_hashFn_ignored name info s :
  pkg.flag pkg.PackageHashIgnoreDirs name = true →
  pkg.walk pkg.hashFn name info s =
  (s, if tree.IsDir info then None else Some pkg.SkipDir).
Proof.
  intros Hf. rewrite walk_unfold. unfold pkg.hashFn. rewrite Hf.
  by destruct info.
Qed.

Lemma walk_hashFn_file name data r s :
  pkg.flag pkg.PackageHashIgnoreDirs name = false →
  pkg.walk pkg.hashFn name (tree.File data r) s =
  if r then (s +:+ data, None) else (s, Some (pkg.WalkFail disk.EACCES)).
Proof.
  intros Hf. rewrite walk_unfold. unfold pkg.hashFn. rewrite Hf. simpl.
  by destruct r.
Qed.

Lemma walk_hashAlike t :
  ∀ t' name s, hashAlike t t' →
    pkg.walk pkg.hashFn name t s = pkg.walk pkg.hashFn name t' s.
Proof.
  induction t as [data r|es r IH] using Node_ind'; intros t' name s Halike.
  - destruct t' as [data' r'|]; [|done]. by destruct Halike as [-> ->].
  - destruct t' as [|es' r']; [done|].
    apply hashAlike_dir in Halike as [<- Hes].
    rewrite !walk_unfold.
    assert (Hfn : ∀ e st, pkg.hashFn name (tree.Dir es r) e st
                          = pkg.hashFn name (tree.Dir es' r) e st) by done.
    rewrite Hfn. destruct (pkg.hashFn name (tree.Dir es' r) None s) as [s1 [e|]];
      [done|].
    destruct r; [|apply Hfn]. clear Hfn.
    revert es' Hes s1. induction IH as [|[n t] es Ht _ IHes];
      intros [|[n' t'] es'] Hes s1; simpl in Hes; try done.
    destruct Hes as [Hent Hes]. cbn [walkList].
    assert (Hw : pkg.walk pkg.hashFn n t s1 = pkg.walk pkg.hashFn n' t' s1
                 ∧ tree.IsDir t = tree.IsDir t').
    { destruct Hent as [[<- Ha]|[(Hd & Hd' & Hf & Hf' & Ha)|(<- & Hf & Hd & Hd')]].
      - split; [by apply Ht|by apply hashAlike_IsDir].
      - destruct t as [d rd|]; [|done]. destruct t' as [d' rd'|]; [|done].
        destruct Ha as [<- <-]. split; [|done].
        by rewrite !walk_hashFn_file.
      - split; [|congruence]. rewrite !walk_hashFn_ignored by done.
        by rewrite Hd, Hd'. }
    destruct Hw as [-> ->].
    destruct (pkg.walk pkg.hashFn n' t' s1) as [s2 [e|]]; [|by apply IHes].
    destruct (negb (tree.IsDir t') || negb (pkg.isSkipDir e)); [done|by apply IHes].
Qed.

(** The hash of a package does not tell apart two package directories that
    differ only in the names of regular files (as long as no file takes or
    leaves one of the ignored names) and in what lies inside directories
    with an ignored name. *)
Theorem Hash_blind_to_file_names (sha1_hex : string → string)
    (mnt mnt' : tree.Mount) (p : pkg.LocalPackage) (root : string)
    (t t' : tree.Node) :
  mnt (pkg.basePath p) = Some (root, t) →
  mnt' (pkg.basePath p) = Some (root, t') →
  hashAlike t t' →
  pkg.Hash sha1_hex mnt p = pkg.Hash sha1_hex mnt' p.
Proof.
  intros Hm Hm' Ha. unfold pkg.Hash, pkg.hashInput. rewrite Hm, Hm'.
  by rewrite (walk_hashAlike t t' root "" Ha).
Qed.

Lemma Hash_blind_to_file_names_witness :
  ∀ sha1_hex : string → string,
    pkg.Hash sha1_hex examples.hashMountA examples.hashPkg
    = pkg.Hash sha1_hex examples.hashMountB examples.hashPkg.
Proof.
  intros sha1_hex.
  apply (Hash_blind_to_file_names sha1_hex examples.hashMountA examples.hashMountB
           examples.hashPkg "p"
           (tree.Dir [("a.c", tree.File "x" true)] true)
           (tree.Dir [("b.c", tree.File "x" true)] true)).
  - reflexivity.
  - reflexivity.
  - simpl. split; [done|]. split; [|done]. right. left.
    repeat split; reflexivity.
Defined.

Lemma walkList_ignored_file pre n data r post post' s :
  pkg.flag pkg.PackageHashIgnoreDirs n = true →
  walkList pkg.hashFn (pre ++ (n, tree.File data r) :: post) s =
  walkList pkg.hashFn (pre ++ (n, tree.File data r) :: post') s.
Proof.
  intros Hf. revert s. induction pre as [|[m t] pre IH]; intros s;
    cbn [app walkList].
  - by rewrite walk_hashFn_ignored.
  - destruct (pkg.walk pkg.hashFn m t s) as [s1 [e|]]; [|apply IH].
    destruct (negb (tree.IsDir t) || negb (pkg.isSkipDir e)); [done|apply IH].
Qed.

(** A regular file with one of the ignored names ([obj], [bin]) ends the walk
    of its directory: whatever follows it in the listing of the package
    directory has no part in the hash. *)
Theorem Hash_ignored_file_hides_rest (sha1_hex : string → string)
    (mnt mnt' : tree.Mount) (p : pkg.LocalPackage) (root n data : string) (r : bool)
    (pre post post' : list (string * tree.Node)) :
  mnt (pkg.basePath p)
    = Some (root, tree.Dir (pre ++ (n, tree.File data r) :: post) true) →
  mnt' (pkg.basePath p)
    = Some (root, tree.Dir (pre ++ (n, tree.File data r) :: post') true) →
  pkg.flag pkg.PackageHashIgnoreDirs n = true →
  pkg.Hash sha1_hex mnt p = pkg.Hash sha1_hex mnt' p.
Proof.
  intros Hm Hm' Hf. unfold pkg.Hash, pkg.hashInput. rewrite Hm, Hm'.
  rewrite !walk_unfold.
  assert (Hfn : ∀ es, pkg.hashFn root (tree.Dir es true) None ""
                      = if pkg.flag pkg.PackageHashIgnoreDirs root
                        then ("", Some pkg.SkipDir) else ("" +:+ root, None)).
  { intros es. unfold pkg.hashFn. by destruct (pkg.flag _ root). }
  rewrite !Hfn. destruct (pkg.flag _ root); [done|].
  by rewrite (walkList_ignored_file pre n data r post post').
Qed.

Lemma Hash_ignored_file_hides_rest_witness :
  ∀ sha1_hex : string → string,
    pkg.Hash sha1_hex
      (examples.mountAt "repo/p/" "p"
         (tree.Dir [("bin", tree.File "" true); ("main.c", tree.File "x" true)] true))
      examples.hashPkg
    = pkg.Hash sha1_hex
        (examples.mountAt "repo/p/" "p"
           (tree.Dir [("bin", tree.File "" true); ("main.c", tree.File "y" true)] true))
        examples.hashPkg.
Proof.
  intros sha1_hex.
  apply (Hash_ignored_file_hides_rest sha1_hex _ _ examples.hashPkg "p" "bin" "" true
           [] [("main.c", tree.File "x" true)] [("main.c", tree.File "y" true)]);
    reflexivity.
Defined.

(** A package whose base directory bears one of the ignored names ([obj],
    [bin], [.]) hashes to the digest of the empty input, whatever it holds. *)
Theorem Hash_ignored_base (sha1_hex : string → string) (mnt : tree.Mount)
    (p : pkg.LocalPackage) (root : string) (t : tree.Node) :
  mnt (pkg.basePath p) = Some (root, t) →
  pkg.flag pkg.PackageHashIgnoreDirs root = true →
  pkg.Hash sha1_hex mnt p = Returned (sha1_hex "", None).
Proof.
  intros Hm Hf. unfold pkg.Hash, pkg.hashInput. rewrite Hm.
  rewrite walk_hashFn_ignored by done. by destruct (tree.IsDir t).
Qed.

Lemma Hash_ignored_base_witness :
  ∀ sha1_hex : string → string,
    pkg.Hash sha1_hex
      (examples.mountAt "repo/p/" "bin" (tree.Dir [("main.c", tree.File "x" true)] true))
      examples.hashPkg
    = Returned (sha1_hex "", None).
Proof.
  intros sha1_hex.
  apply (Hash_ignored_base sha1_hex _ examples.hashPkg "bin"
           (tree.Dir [("main.c", tree.File "x" true)] true)); reflexivity.
Defined.

Lemma hashFn_appends name info err s :
  pkg.hashFn name info err s =
  (s +:+ (pkg.hashFn name info err "").1, (pkg.hashFn name info err "").2).
Proof.
  unfold pkg.hashFn. destruct (pkg.flag _ name); simpl; [by rewrite str_app_nil_r|].
  destruct (tree.IsDir info); simpl; [done|].
  destruct (tree.ReadFile info); simpl; by rewrite ?str_app_nil_r.
Qed.

Lemma walk_hashFn_appends t :
  ∀ name s,
    pkg.walk pkg.hashFn name t s =
    (s +:+ (pkg.walk pkg.hashFn name t "").1, (pkg.walk pkg.hashFn name t "").2).
Proof.
  induction t as [data r|es r IH] using Node_ind'; intros name s.
  - rewrite !walk_unfold, (hashFn_appends _ _ _ s).
    destruct (pkg.hashFn name (tree.File data r) None "") as [w [e|]]; simpl; [|done].
    done.
  - rewrite !walk_unfold, (hashFn_appends _ _ _ s).
    destruct (pkg.hashFn name (tree.Dir es r) None "") as [w [e|]]; simpl.
    { by destruct (pkg.isSkipDir e). }
    destruct r.
    2:{ rewrite (hashFn_appends _ _ _ (s +:+ w)), (hashFn_appends _ _ _ ("" +:+ w)).
        simpl. by rewrite str_app_assoc. }
    rewrite ?str_app_nil_l.
    assert (Hl : ∀ s0, walkList pkg.hashFn es s0 =
                       (s0 +:+ (walkList pkg.hashFn es "").1,
                        (walkList pkg.hashFn es "").2)).
    { clear w. induction IH as [|[n t] es Ht _ IHes]; intros s0; cbn [walkList].
      - by rewrite str_app_nil_r.
      - cbn [snd] in Ht. rewrite (Ht n s0).
        destruct (pkg.walk pkg.hashFn n t "") as [w1 [e|]]; cbn [fst snd].
        + destruct (negb (tree.IsDir t) || negb (pkg.isSkipDir e)); cbn [fst snd];
            [done|].
          rewrite (IHes (s0 +:+ w1)), (IHes w1). cbn [fst snd].
          by rewrite !str_app_assoc.
        + rewrite (IHes (s0 +:+ w1)), (IHes w1). cbn [fst snd].
          by rewrite !str_app_assoc. }
    rewrite (Hl (s +:+ w)), (Hl w). simpl. by rewrite str_app_assoc.
Qed.

(** The bytes fed to the digest begin with the name of the base directory of
    the package (when that directory can be entered and its name is not an
    ignored one): the hash input of a package depends on what its directory
    is called, not only on what lies below it. *)
Theorem Hash_input_starts_with_base_name (mnt : tree.Mount) (p : pkg.LocalPackage)
    (root : string) (es : list (string * tree.Node)) (r : bool) :
  mnt (pkg.basePath p) = Some (root, tree.Dir es r) →
  pkg.flag pkg.PackageHashIgnoreDirs root = false →
  ∃ rest err, pkg.hashInput mnt p = Returned (root +:+ rest, err).
Proof.
  intros Hm Hf. unfold pkg.hashInput. rewrite Hm, walk_unfold.
  unfold pkg.hashFn at 1. rewrite Hf. simpl. destruct r.
  - rewrite ?str_app_nil_l.
    assert (Hl : ∀ es s0, walkList pkg.hashFn es s0 =
                       (s0 +:+ (walkList pkg.hashFn es "").1,
                        (walkList pkg.hashFn es "").2)).
    { clear. intros es. induction es as [|[n t] es IHes]; intros s0; cbn [walkList].
      - by rewrite str_app_nil_r.
      - rewrite (walk_hashFn_appends t n s0).
        destruct (pkg.walk pkg.hashFn n t "") as [w1 [e|]]; cbn [fst snd].
        + destruct (negb (tree.IsDir t) || negb (pkg.isSkipDir e)); cbn [fst snd];
            [done|].
          rewrite (IHes (s0 +:+ w1)), (IHes w1). cbn [fst snd].
          by rewrite !str_app_assoc.
        + rewrite (IHes (s0 +:+ w1)), (IHes w1). cbn [fst snd].
          by rewrite !str_app_assoc. }
    rewrite Hl. eauto.
  - unfold pkg.hashFn. rewrite Hf. simpl. rewrite str_app_nil_l. eauto.
Qed.

Lemma Hash_input_starts_with_base_name_witness :
  ∃ rest err, pkg.hashInput examples.hashMountA examples.hashPkg
              = Returned ("p" +:+ rest, err).
Proof.
  apply (Hash_input_starts_with_base_name examples.hashMountA examples.hashPkg "p"
           [("a.c", tree.File "x" true)] true); reflexivity.
Defined.

(** ** Further properties of load and save *)

Lemma matchType_order_independent (typeNames : gmap Z string)
    (o1 o2 : RangeOrder Z string) (typeString : string) (dflt : Z) :
  valid_order o1 → valid_order o2 →
  (∀ t t' n, typeNames !! t = Some n → typeNames !! t' = Some n → t = t') →
  pkg.matchType typeString (o1 typeNames) dflt
  = pkg.matchType typeString (o2 typeNames) dflt.
Proof.
  intros Hv1 Hv2 Huniq.
  assert (Hdec : (∃ t, (t, typeString) ∈ map_to_list typeNames)
                 ∨ ¬ (∃ t, (t, typeString) ∈ map_to_list typeNames)).
  { destruct (decide (Exists (λ e : Z * string, e.2 = typeString)
                        (map_to_list typeNames))) as [He|Hn].
    - left. apply Exists_exists in He as ([t n] & Hin & Hn). simpl in Hn.
      subst. eauto.
    - right. intros [t Ht]. apply Hn, Exists_exists. by exists (t, typeString). }
  destruct Hdec as [Hk|Hu].
  - assert (H1 : (pkg.matchType typeString (o1 typeNames) dflt, typeString)
                 ∈ o1 typeNames).
    { apply matchType_known. destruct Hk as [t Ht]. exists t. by rewrite (Hv1 _). }
    assert (H2 : (pkg.matchType typeString (o2 typeNames) dflt, typeString)
                 ∈ o2 typeNames).
    { apply matchType_known. destruct Hk as [t Ht]. exists t. by rewrite (Hv2 _). }
    apply (elem_of_order o1) in H1; [|done].
    apply (elem_of_order o2) in H2; [|done].
    by eapply Huniq.
  - rewrite !matchType_unknown; [done|..].
    + intros t Hin. apply Hu. exists t. by rewrite <- (Hv2 _).
    + intros t Hin. apply Hu. exists t. by rewrite <- (Hv1 _).
Qed.

(** When no two types bear the same name, the outcome of [Load] does not
    depend on the order in which the loop visits the table of type names. *)
Theorem Load_order_independent (typeNames : gmap Z string) (LIB : pkg.PackageType)
    (ReadYaml : string → option (gmap string pkg.Value))
    (LoadVersion : string → NewtError + pkg.Version)
    (o1 o2 : RangeOrder Z string) (dir : tree.Node) (p : pkg.LocalPackage) :
  valid_order o1 → valid_order o2 →
  (∀ t t' n, typeNames !! t = Some n → typeNames !! t' = Some n → t = t') →
  pkg.Load typeNames LIB ReadYaml LoadVersion o1 dir p
  = pkg.Load typeNames LIB ReadYaml LoadVersion o2 dir p.
Proof.
  intros Hv1 Hv2 Huniq. unfold pkg.Load.
  destruct (pkg.ReadConfig ReadYaml dir) as [e|v]; [done|].
  by rewrite (matchType_order_independent typeNames o1 o2 _ LIB Hv1 Hv2 Huniq).
Qed.

Lemma Load_order_independent_witness :
  let dir := tree.Dir [("pkg.yml",
                        tree.File (examples.descriptorText "x" "app") true)] true in
  pkg.Load examples.typeNames 0%Z examples.readYaml examples.loadVersion
    range_fwd dir pkg.zeroPackage
  = pkg.Load examples.typeNames 0%Z examples.readYaml examples.loadVersion
      range_rev dir pkg.zeroPackage.
Proof.
  intros dir.
  apply (Load_order_independent examples.typeNames 0%Z examples.readYaml
           examples.loadVersion range_fwd range_rev dir pkg.zeroPackage).
  - apply valid_range_fwd.
  - apply valid_range_rev.
  - intros t t' n. unfold examples.typeNames.
    rewrite !lookup_insert. repeat case_decide; subst; rewrite ?lookup_empty; congruence.
Defined.

(** With two types of one name the order of the loop shows in the type that
    [Load] gives: the condition of the previous theorem is needed. *)
Example Load_order_shows :
  let typeNames : gmap Z string := <[1%Z := "app"]> {[ 2%Z := "app" ]} in
  let dir := tree.Dir [("pkg.yml",
                        tree.File (examples.descriptorText "x" "app") true)] true in
  pkg.packageType (pkg.Load typeNames 0%Z examples.readYaml examples.loadVersion
                     range_fwd dir pkg.zeroPackage).1 = 2%Z
  ∧ pkg.packageType (pkg.Load typeNames 0%Z examples.readYaml examples.loadVersion
                       range_rev dir pkg.zeroPackage).1 = 1%Z.
Proof. vm_compute. done. Qed.

Lemma descriptorPath_ne p : pkg.BasePath p ≠ descriptorPath p.
Proof. unfold descriptorPath. by apply str_app_ne. Qed.

(** [Save] touches two paths at most, the base directory and the descriptor:
    every other path of the store holds after [Save] what it held before,
    whether [Save] ends with an error or not. *)
Theorem Save_frame (typeNames : gmap Z string) (p : pkg.LocalPackage)
    (fs : disk.FS) (path : string) :
  path ≠ pkg.BasePath p → path ≠ descriptorPath p →
  disk.nodes (pkg.Save typeNames p fs).1 !! path = disk.nodes fs !! path
  ∧ disk.frozen (pkg.Save typeNames p fs).1 = disk.frozen fs.
Proof.
  intros Hd Hf. unfold pkg.Save.
  assert (Hws : ∀ fs0 s, disk.nodes (disk.WriteString fs0 (descriptorPath p) s) !! path
                         = disk.nodes fs0 !! path
                       ∧ disk.frozen (disk.WriteString fs0 (descriptorPath p) s)
                         = disk.frozen fs0).
  { intros fs0 s. unfold disk.WriteString.
    destruct (disk.nodes fs0 !! descriptorPath p) as [[data r|]|]; simpl; try done.
    by rewrite lookup_insert_ne. }
  assert (Hmk : disk.nodes (disk.MkdirAll fs (pkg.BasePath p)).1 !! path
                = disk.nodes fs !! path
                ∧ disk.frozen (disk.MkdirAll fs (pkg.BasePath p)).1 = disk.frozen fs).
  { unfold disk.MkdirAll. repeat case_match; simpl; try done.
    by rewrite lookup_insert_ne. }
  destruct (disk.MkdirAll fs (pkg.BasePath p)) as [fs0 [e|]]; [done|].
  cbn [fst] in Hmk. destruct Hmk as [<- <-].
  assert (Hcr : disk.nodes (disk.Create fs0 (descriptorPath p)).1 !! path
                = disk.nodes fs0 !! path
                ∧ disk.frozen (disk.Create fs0 (descriptorPath p)).1 = disk.frozen fs0).
  { unfold disk.Create, disk.WriteFile. repeat case_match; simpl; try done;
      by rewrite lookup_insert_ne. }
  fold (descriptorPath p).
  destruct (disk.Create fs0 (descriptorPath p)) as [fs1 [e|]]; [done|].
  cbn [fst] in Hcr. destruct Hcr as [<- <-]. cbn [fst].
  repeat match goal with
         | |- context [disk.WriteString ?f (descriptorPath p) ?s] =>
             destruct (Hws f s) as [-> ->]
         end.
  done.
Qed.

Lemma Save_frame_witness :
  let fs := disk.mkFS {[ "repo/other.c" := disk.File "int x;" true ]} ∅ in
  disk.nodes (pkg.Save examples.typeNames examples.hashPkg fs).1 !! "repo/other.c"
  = Some (disk.File "int x;" true).
Proof.
  intros fs.
  destruct (Save_frame examples.typeNames examples.hashPkg fs "repo/other.c")
    as [-> _]; [by vm_compute|by vm_compute|reflexivity].
Defined.

Lemma WriteString_setNode fs path data r s :
  disk.WriteString (disk.setNode fs path (disk.File data r)) path s
  = disk.setNode fs path (disk.File (data +:+ s) r).
Proof.
  unfold disk.WriteString, disk.setNode. simpl. rewrite lookup_insert_eq. simpl.
  by rewrite insert_insert_eq.
Qed.

Lemma Create_setNode fs fs' path :
  disk.Create fs path = (fs', None) →
  (path ∉ disk.frozen fs)
  ∧ ∃ r, fs' = disk.setNode fs path (disk.File "" r)
         ∧ ((disk.nodes fs !! path = None ∧ r = true)
            ∨ (∃ data, disk.nodes fs !! path = Some (disk.File data r))).
Proof.
  unfold disk.Create, disk.WriteFile.
  destruct (disk.nodes fs !! path) as [[data r|]|] eqn:Hp; [| done |];
    destruct (decide (path ∈ disk.frozen fs)); try done;
    intros [= <-]; split; try done; eexists; split; eauto.
Qed.

(** The store that a successful [Save] leaves. *)
Lemma Save_result (typeNames : gmap Z string) (p : pkg.LocalPackage) (fs fs' : disk.FS) :
  pkg.Save typeNames p fs = (fs', None) →
  ∃ fs0 r,
    disk.MkdirAll fs (pkg.BasePath p) = (fs0, None)
    ∧ (descriptorPath p ∉ disk.frozen fs0)
    ∧ ((disk.nodes fs0 !! descriptorPath p = None ∧ r = true)
       ∨ (∃ data, disk.nodes fs0 !! descriptorPath p = Some (disk.File data r)))
    ∧ fs' = disk.setNode fs0 (descriptorPath p)
              (disk.File (renderDescriptor typeNames p) r).
Proof.
  unfold pkg.Save. fold (descriptorPath p).
  destruct (disk.MkdirAll fs (pkg.BasePath p)) as [fs0 [e|]]; [done|].
  destruct (disk.Create fs0 (descriptorPath p)) as [fs1 [e|]] eqn:Hc; [done|].
  apply Create_setNode in Hc as (Hfr & r & -> & Hold).
  intros [= <-]. exists fs0, r. split; [done|]. split; [done|]. split; [done|].
  rewrite !WriteString_setNode. do 2 f_equal.
  unfold renderDescriptor, descriptorFields, fieldLine. simpl.
  by rewrite ?str_app_nil_l, ?str_app_assoc, ?str_app_nil_r.
Qed.

(** A [Save] that ended without error can be repeated: the second [Save] of
    the same package ends without error and leaves the store as the first
    one left it. *)
Theorem Save_idempotent (typeNames : gmap Z string) (p : pkg.LocalPackage)
    (fs fs1 : disk.FS) :
  pkg.Save typeNames p fs = (fs1, None) →
  pkg.Save typeNames p fs1 = (fs1, None).
Proof.
  intros Hsave. apply Save_result in Hsave as (fs0 & r & Hmk & Hfr & Hold & ->).
  assert (Hdir : disk.nodes fs0 !! pkg.BasePath p = Some disk.Dir).
  { revert Hmk. unfold disk.MkdirAll. repeat case_match; intros [= <-]; simpl; try done.
    by rewrite lookup_insert_eq. }
  unfold pkg.Save. fold (descriptorPath p).
  unfold disk.MkdirAll at 1. simpl.
  rewrite lookup_insert_ne by (apply not_eq_sym, descriptorPath_ne). rewrite Hdir.
  unfold disk.Create, disk.WriteFile. simpl. rewrite lookup_insert_eq.
  rewrite decide_False by done.
  unfold disk.setNode at 1. simpl. rewrite insert_insert_eq.
  fold (disk.setNode fs0 (descriptorPath p) (disk.File "" r)).
  rewrite !WriteString_setNode. do 3 f_equal.
  unfold renderDescriptor, descriptorFields, fieldLine. simpl.
  by rewrite ?str_app_nil_l, ?str_app_assoc, ?str_app_nil_r.
Qed.

Lemma Save_idempotent_witness :
  let fs1 := (pkg.Save examples.typeNames examples.hashPkg (disk.mkFS ∅ ∅)).1 in
  pkg.Save examples.typeNames examples.hashPkg fs1 = (fs1, None).
Proof.
  intros fs1.
  apply (Save_idempotent examples.typeNames examples.hashPkg (disk.mkFS ∅ ∅) fs1).
  vm_compute. reflexivity.
Defined.


(** ** Further properties of discovery *)

Section discovery_more.
Variable typeNames : gmap Z string.
Variable LIB : pkg.PackageType.
Variable ReadYaml : string → option (gmap string pkg.Value).
Variable LoadVersion : string → NewtError + pkg.Version.
Variable Clean : string → string.
Variable typeOrder : RangeOrder Z string.
Variable r : pkg.Repo.

Abbreviation RLPR := (pkg.ReadLocalPackageRecursive typeNames LIB ReadYaml LoadVersion
                    Clean typeOrder r).
Abbreviation walkEnts := (walkEntries typeNames LIB ReadYaml LoadVersion Clean typeOrder r).
Abbreviation loadAt' := (loadAt typeNames LIB ReadYaml LoadVersion Clean typeOrder r).
Abbreviation loads' := (loads typeNames LIB ReadYaml LoadVersion Clean typeOrder r).
Abbreviation LLP := (pkg.LoadLocalPackage typeNames LIB ReadYaml LoadVersion Clean
                       typeOrder r).

Lemma LoadLocalPackage_fields pkgDir dir p :
  LLP pkgDir dir = (p, None) →
  pkg.basePath p = Clean pkgDir +:+ "/" ∧ pkg.repo p = r.
Proof.
  unfold pkg.LoadLocalPackage, pkg.Load.
  destruct (pkg.ReadConfig ReadYaml dir) as [e|v]; [done|].
  destruct (LoadVersion _) as [e|ver]; [done|]. by intros [= <-].
Qed.

Lemma loads_elem sites L p :
  loads' sites = Some L → p ∈ L →
  ∃ site, site ∈ sites ∧ LLP site.1 site.2 = (p, None).
Proof.
  revert L. induction sites as [|site sites IH]; intros L; simpl.
  - intros [= <-] Hin. by apply elem_of_nil in Hin.
  - unfold loadAt at 1.
    destruct (LLP site.1 site.2) as [q [e|]] eqn:Hq; [done|].
    destruct (loads' sites) as [L'|]; [|done]. intros [= <-] Hin.
    apply elem_of_cons in Hin as [->|Hin].
    + exists site. split; [left|done].
    + destruct (IH L' eq_refl Hin) as (s & Hs & Hl). exists s. split; [by right|done].
Qed.

Lemma foldl_insertPkg_elem L (m : gmap string pkg.LocalPackage) n p :
  foldl insertPkg m L !! n = Some p →
  m !! n = Some p ∨ (p ∈ L ∧ pkg.Name p = n).
Proof.
  rewrite foldl_insertPkg_lookup.
  destruct (last (filter (λ p, pkg.Name p = n) L)) as [q|] eqn:Hl; [|by left].
  intros [= ->]. right. apply last_Some_elem_of in Hl.
  by apply list_elem_of_filter in Hl as [? ?].
Qed.

End discovery_more.

(** Every package that discovery returns stands in the list under the name
    that its descriptor declares, belongs to the repository of the run, and
    has for base path the cleaned path of a directory in which discovery
    loaded a descriptor, followed by a slash. *)
Theorem discovery_entries (typeNames : gmap Z string)
    (LIB : pkg.PackageType) (ReadYaml : string → option (gmap string pkg.Value))
    (LoadVersion : string → NewtError + pkg.Version) (Clean : string → string)
    (typeOrder : RangeOrder Z string) (mnt : tree.Mount) (r : pkg.Repo)
    (basePath : string) (searchPaths : list string)
    (m : gmap string pkg.LocalPackage) (n : string) (p : pkg.LocalPackage) :
  pkg.ReadLocalPackages typeNames LIB ReadYaml LoadVersion Clean typeOrder
    mnt r basePath searchPaths = inr m →
  m !! n = Some p →
  pkg.Name p = n ∧ pkg.repo p = r
  ∧ ∃ path d, (path, d) ∈ searchSites mnt basePath searchPaths
              ∧ pkg.basePath p = Clean path +:+ "/".
Proof.
  intros Hrun Hp. apply ReadLocalPackages_spec in Hrun as (_ & L & HL & ->).
  apply foldl_insertPkg_elem in Hp as [Hp|[Hin Hn]]; [by rewrite lookup_empty in Hp|].
  destruct (loads_elem _ _ _ _ _ _ _ _ _ _ HL Hin) as ([path d] & Hs & Hload).
  apply LoadLocalPackage_fields in Hload as [Hb Hr].
  split; [done|]. split; [done|]. eauto.
Qed.

Lemma discovery_entries_witness :
  ∃ m p, examples.discover examples.nestedMount ["libs"] = inr m
         ∧ m !! "inner" = Some p
         ∧ pkg.Name p = "inner" ∧ pkg.repo p = examples.localRepo.
Proof.
  eexists _, _. split; [apply discover_nested|].
  match goal with
  | |- ?m !! "inner" = Some ?p ∧ _ =>
      assert (Hl : m !! "inner" = Some p)
  end.
  { rewrite lookup_insert_ne by done. apply lookup_insert_eq. }
  split; [exact Hl|].
  destruct (discovery_entries examples.typeNames 0%Z examples.readYaml
              examples.loadVersion examples.clean range_fwd examples.nestedMount
              examples.localRepo "repo" ["libs"] _ "inner" _ discover_nested Hl)
    as (Hn & Hr & _).
  split; [exact Hn|exact Hr].
Defined.

(** A search path that does not exist is passed over: discovery returns what
    it returns without it, and the empty list when no search path exists. *)
Theorem discovery_skips_missing_search_path (typeNames : gmap Z string)
    (LIB : pkg.PackageType) (ReadYaml : string → option (gmap string pkg.Value))
    (LoadVersion : string → NewtError + pkg.Version) (Clean : string → string)
    (typeOrder : RangeOrder Z string) (mnt : tree.Mount) (r : pkg.Repo)
    (basePath : string) (before after : list string) (path : string) :
  mnt (basePath +:+ "/" +:+ path) = None →
  pkg.ReadLocalPackages typeNames LIB ReadYaml LoadVersion Clean typeOrder
    mnt r basePath (before ++ path :: after)
  = pkg.ReadLocalPackages typeNames LIB ReadYaml LoadVersion Clean typeOrder
      mnt r basePath (before ++ after).
Proof.
  intros Hnone. unfold pkg.ReadLocalPackages.
  assert (Hgen : ∀ m,
    pkg.readSearchPaths typeNames LIB ReadYaml LoadVersion Clean typeOrder
      mnt r m basePath (before ++ path :: after)
    = pkg.readSearchPaths typeNames LIB ReadYaml LoadVersion Clean typeOrder
        mnt r m basePath (before ++ after)); [|by rewrite Hgen].
  induction before as [|q before IH]; intros m; simpl.
  - by rewrite Hnone.
  - destruct (mnt (basePath +:+ "/" +:+ q)) as [[nm node]|]; [|apply IH].
    destruct (tree.ReadDir node) as [e|dirList]; [done|].
    destruct (pkg.readSubDirs _ _ _ _ _ _ _ _ _ _) as [m1 [e|]]; [done|apply IH].
Qed.

Lemma discovery_skips_missing_search_path_witness :
  examples.discover examples.dupMount ["missing"; "libs"]
  = examples.discover examples.dupMount ["libs"].
Proof.
  apply (discovery_skips_missing_search_path examples.typeNames 0%Z examples.readYaml
           examples.loadVersion examples.clean range_fwd examples.dupMount
           examples.localRepo "repo" [] ["libs"] "missing").
  reflexivity.
Defined.

Lemma lookup_skip (pre post : list (string * tree.Node)) name n key :
  name ≠ key →
  tree.lookup (pre ++ (name, n) :: post) key = tree.lookup (pre ++ post) key.
Proof.
  intros Hne. induction pre as [|[k t] pre IH]; simpl.
  - by rewrite decide_False.
  - by rewrite IH.
Qed.

(** Below a search directory, an entry that is a regular file (other than
    the descriptor), a hidden entry, or an entry named [src], [include] or
    [bin] is of no consequence: the directory is discovered as if the entry
    were not there. *)
Theorem discovery_ignores_unentered (typeNames : gmap Z string)
    (LIB : pkg.PackageType) (ReadYaml : string → option (gmap string pkg.Value))
    (LoadVersion : string → NewtError + pkg.Version) (Clean : string → string)
    (typeOrder : RangeOrder Z string) (r : pkg.Repo)
    (m : gmap string pkg.LocalPackage) (basePath pkgName : string)
    (pre post : list (string * tree.Node)) (name : string) (n : tree.Node) :
  entered name n = false →
  name ≠ pkg.PACKAGE_FILE_NAME →
  pkg.ReadLocalPackageRecursive typeNames LIB ReadYaml LoadVersion Clean typeOrder
    r m basePath pkgName (tree.Dir (pre ++ (name, n) :: post) true)
  = pkg.ReadLocalPackageRecursive typeNames LIB ReadYaml LoadVersion Clean typeOrder
      r m basePath pkgName (tree.Dir (pre ++ post) true).
Proof.
  intros Hent Hname. rewrite !RLPR_unfold.
  assert (Hw : ∀ m,
    walkEntries typeNames LIB ReadYaml LoadVersion Clean typeOrder r m basePath
      pkgName (pre ++ (name, n) :: post)
    = walkEntries typeNames LIB ReadYaml LoadVersion Clean typeOrder r m basePath
        pkgName (pre ++ post)).
  { clear m. induction pre as [|[k t] pre IH]; intros m; simpl.
    - unfold entered in Hent. destruct (tree.IsDir n); simpl in *; [|done].
      by destruct (pkg.LocalPackageSpecialName name || HasPrefix name ".").
    - destruct (negb (tree.IsDir t)); [apply IH|].
      destruct (pkg.LocalPackageSpecialName k || HasPrefix k "."); [apply IH|].
      destruct (pkg.ReadLocalPackageRecursive _ _ _ _ _ _ _ _ _ _ _) as [m1 [e|]];
        [done|apply IH]. }
  rewrite Hw. destruct (walkEntries _ _ _ _ _ _ _ _ _ _ _) as [m1 [e|]]; [done|].
  rewrite lookup_skip by done.
  destruct (tree.lookup (pre ++ post) pkg.PACKAGE_FILE_NAME) as [f|]; [|done].
  unfold pkg.LoadLocalPackage, pkg.Load, pkg.ReadConfig.
  by rewrite lookup_skip by done.
Qed.

Lemma discovery_ignores_unentered_witness :
  pkg.ReadLocalPackageRecursive examples.typeNames 0%Z examples.readYaml
    examples.loadVersion examples.clean range_fwd examples.localRepo ∅
    "repo/libs" "outer"
    (tree.Dir [("src", examples.packageDir "hidden" []);
               ("pkg.yml", tree.File (examples.descriptorText "outer" "lib") true)] true)
  = pkg.ReadLocalPackageRecursive examples.typeNames 0%Z examples.readYaml
      examples.loadVersion examples.clean range_fwd examples.localRepo ∅
      "repo/libs" "outer"
      (tree.Dir [("pkg.yml", tree.File (examples.descriptorText "outer" "lib") true)] true).
Proof.
  apply (discovery_ignores_unentered examples.typeNames 0%Z examples.readYaml
           examples.loadVersion examples.clean range_fwd examples.localRepo ∅
           "repo/libs" "outer" []
           [("pkg.yml", tree.File (examples.descriptorText "outer" "lib") true)]
           "src" (examples.packageDir "hidden" [])).
  - reflexivity.
  - discriminate.
Defined.

Section discovery_grows.
Variable typeNames : gmap Z string.
Variable LIB : pkg.PackageType.
Variable ReadYaml : string → option (gmap string pkg.Value).
Variable LoadVersion : string → NewtError + pkg.Version.
Variable Clean : string → string.
Variable typeOrder : RangeOrder Z string.
Variable r : pkg.Repo.

Definition keeps (dir : tree.Node) : Prop :=
  ∀ m bp pn key,
    is_Some (m !! key) →
    is_Some ((pkg.ReadLocalPackageRecursive typeNames LIB ReadYaml LoadVersion
                Clean typeOrder r m bp pn dir).1 !! key).

Lemma walkEntries_keeps es :
  Forall (λ e, keeps e.2) es →
  ∀ m bp pn key,
    is_Some (m !! key) →
    is_Some ((walkEntries typeNames LIB ReadYaml LoadVersion Clean typeOrder r
                m bp pn es).1 !! key).
Proof.
  induction 1 as [|[nm n] es Hn _ IH]; intros m bp pn key Hk; simpl; [done|].
  destruct (negb (tree.IsDir n)); [by apply IH|].
  destruct (pkg.LocalPackageSpecialName nm || HasPrefix nm "."); [by apply IH|].
  specialize (Hn m bp (pn +:+ "/" +:+ nm) key Hk). simpl in Hn.
  destruct (pkg.ReadLocalPackageRecursive _ _ _ _ _ _ _ _ _ _ _) as [m1 [e|]];
    [done|by apply IH].
Qed.

Lemma RLPR_keeps dir : keeps dir.
Proof.
  induction dir as [data rd|es rd IH] using Node_ind'; intros m bp pn key Hk.
  - done.
  - destruct rd; [|done]. rewrite RLPR_unfold.
    pose proof (walkEntries_keeps es IH m bp pn key Hk) as Hw.
    destruct (walkEntries _ _ _ _ _ _ _ _ _ _ _) as [m1 [e|]]; [done|].
    simpl in Hw. destruct (tree.lookup es pkg.PACKAGE_FILE_NAME); [|done].
    destruct (pkg.LoadLocalPackage _ _ _ _ _ _ _ _ _) as [p [e|]]; [done|].
    simpl. rewrite lookup_insert. by case_decide.
Qed.
End discovery_grows.

(** The recursive discovery never takes a name out of the package list: a
    name that is in the list before is in the list after, also when the
    recursion ends with an error. *)
Theorem discovery_keeps_names (typeNames : gmap Z string)
    (LIB : pkg.PackageType) (ReadYaml : string → option (gmap string pkg.Value))
    (LoadVersion : string → NewtError + pkg.Version) (Clean : string → string)
    (typeOrder : RangeOrder Z string) (r : pkg.Repo)
    (m : gmap string pkg.LocalPackage) (basePath pkgName : string)
    (dir : tree.Node) (key : string) :
  is_Some (m !! key) →
  is_Some ((pkg.ReadLocalPackageRecursive typeNames LIB ReadYaml LoadVersion
              Clean typeOrder r m basePath pkgName dir).1 !! key).
Proof. apply RLPR_keeps. Qed.

Lemma discovery_keeps_names_witness :
  is_Some ((pkg.ReadLocalPackageRecursive examples.typeNames 0%Z examples.readYaml
              examples.loadVersion examples.clean range_fwd examples.localRepo
              {[ "dup" := examples.hashPkg ]} "repo/libs" "a"
              (examples.packageDir "dup" [])).1 !! "dup").
Proof.
  apply (discovery_keeps_names examples.typeNames 0%Z examples.readYaml
           examples.loadVersion examples.clean range_fwd examples.localRepo
           {[ "dup" := examples.hashPkg ]} "repo/libs" "a"
           (examples.packageDir "dup" []) "dup").
  rewrite lookup_singleton_eq. eauto.
Defined.

(** ** Further properties of the generator *)

Lemma Permutation_short {A} (l k : list A) :
  l ≡ₚ k → length k ≤ 1 → l = k.
Proof.
  intros Hp Hlen. destruct k as [|x [|y k]]; simpl in Hlen; [| |lia].
  - by apply Permutation_nil_r.
  - by apply Permutation_singleton_r.
Qed.

Lemma ranged_single rng1 rng2 n1 n2 pkgs :
  valid_ranges rng1 → valid_ranges rng2 →
  Forall (λ p, size (pkg.InitFuncs p) ≤ 1) pkgs →
  ranged rng1 n1 pkgs = ranged rng2 n2 pkgs.
Proof.
  intros Hv1 Hv2 Hall. revert n1 n2.
  induction Hall as [|p ps Hp _ IH]; intros n1 n2; [done|]. simpl.
  rewrite (IH (S n1) (S n2)). f_equal. f_equal.
  rewrite (Permutation_short _ _ (Hv1 n1 (pkg.InitFuncs p)))
    by (by rewrite length_map_to_list).
  rewrite (Permutation_short _ _ (Hv2 n2 (pkg.InitFuncs p)))
    by (by rewrite length_map_to_list).
  done.
Qed.

(** When no package registers more than one entry point, the generated text
    is the same for every order that the loops over the maps may take. *)
Theorem write_single_entry_deterministic (P : string) (rng1 rng2 : Ranges)
    (pkgs : list pkg.LocalPackage) (isLoader : bool) (w : string) :
  valid_ranges rng1 → valid_ranges rng2 →
  Forall (λ p, size (pkg.InitFuncs p) ≤ 1) pkgs →
  write P rng1 pkgs isLoader w = write P rng2 pkgs isLoader w.
Proof.
  intros Hv1 Hv2 Hall. rewrite !write_spec. unfold buildStageMap.
  rewrite !buildStageMap_from_ranged.
  rewrite (ranged_single rng1 rng2 0 0 pkgs Hv1 Hv2 Hall).
  assert (Hsorted : Forall (λ p, size (pkg.InitFuncs p) ≤ 1) (pkg.SortLclPkgs pkgs))
    by (by rewrite SortLclPkgs_Permutation).
  by rewrite (ranged_single rng1 rng2 (length pkgs) (length pkgs) _ Hv1 Hv2 Hsorted).
Qed.

Lemma write_single_entry_deterministic_witness :
  write "" (λ _, range_fwd) [examples.pkgB; examples.pkgA] true ""
  = write "" (λ _, range_rev) [examples.pkgB; examples.pkgA] true "".
Proof.
  apply (write_single_entry_deterministic "" (λ _, range_fwd) (λ _, range_rev)
           [examples.pkgB; examples.pkgA] true "").
  - intros n. apply valid_range_fwd.
  - intros n. apply valid_range_rev.
  - repeat constructor; vm_compute; lia.
Defined.

Lemma ranged_empty rng n pkgs :
  valid_ranges rng →
  Forall (λ p, pkg.InitFuncs p = ∅) pkgs →
  ranged rng n pkgs = [].
Proof.
  intros Hv Hall. revert n. induction Hall as [|p ps Hp _ IH]; intros n; [done|].
  simpl. rewrite IH, app_nil_r.
  assert (rng n (pkg.InitFuncs p) = []) as ->; [|done].
  apply Permutation_nil_r. rewrite (Hv n _), Hp. by rewrite map_to_list_empty.
Qed.

(** Without any entry point (no package, or packages that register none) the
    generated text has no prototype and an empty function body. *)
Theorem write_no_entry_points (P : string) (rng : Ranges)
    (pkgs : list pkg.LocalPackage) (isLoader : bool) (w : string) :
  valid_ranges rng →
  Forall (λ p, pkg.InitFuncs p = ∅) pkgs →
  write P rng pkgs isLoader w =
  w +:+ P +:+ guard isLoader +:+ nl
    +:+ ("void" +:+ nl +:+ fnName isLoader +:+ "(void)" +:+ nl +:+ "{" +:+ nl)
    +:+ ("}" +:+ nl +:+ nl) +:+ ("#endif" +:+ nl).
Proof.
  intros Hv Hall. rewrite write_spec. unfold buildStageMap.
  rewrite buildStageMap_from_ranged.
  assert (Hsorted : Forall (λ p, pkg.InitFuncs p = ∅) (pkg.SortLclPkgs pkgs))
    by (by rewrite SortLclPkgs_Permutation).
  rewrite !ranged_empty by done. simpl.
  replace (blocksOf ∅) with (@nil (Z * list initFunc)) by (by vm_compute).
  simpl. by rewrite !str_app_nil_l.
Qed.

Lemma write_no_entry_points_witness :
  write "" (λ _, range_fwd) [] false "" =
  examples.lines [ "#if !SPLIT_LOADER"; ""; ""; "void"; "sysinit_app(void)"; "{";
                   "}"; ""; "#endif" ].
Proof.
  rewrite (write_no_entry_points "" (λ _, range_fwd) [] false "").
  - vm_compute. reflexivity.
  - intros n. apply valid_range_fwd.
  - constructor.
Defined.

(** Within the block of a stage the entry points stand in the order in which
    the loops met them: package after package in the order of the list handed
    to the generator, not sorted by package name as the prototypes are. *)
Theorem stage_keeps_package_order (rng : Ranges) (pkgs : list pkg.LocalPackage)
    (s : Z) (fs : list initFunc) :
  (s, fs) ∈ blocksOf (buildStageMap rng pkgs) →
  fs = filter (λ f, stage f = s) (ranged rng 0 pkgs) ∧ fs ≠ [].
Proof.
  intros Hin. unfold blocksOf in Hin.
  apply list_elem_of_fmap in Hin as (s' & [= -> ->] & Hs).
  apply elem_of_sortedStages in Hs. rewrite buildStageMap_lookup in Hs |- *.
  destruct (filter _ _) as [|f fs']; [by destruct Hs|done].
Qed.

Example stage_order_not_by_name :
  let b := examples.package "B" {[ "b_init" := 1%Z ]} in
  let a := examples.package "A" {[ "a_init" := 1%Z ]} in
  write "" (λ _, range_fwd) [b; a] false "" =
  examples.lines
    [ "#if !SPLIT_LOADER"; "";
      "void a_init(void);"; "void b_init(void);"; "";
      "void"; "sysinit_app(void)"; "{"; "";
      "    /*** Stage 1 */";
      "    /* 1.0: B */"; "    b_init();";
      "    /* 1.1: A */"; "    a_init();";
      "}"; ""; "#endif" ].
Proof. vm_compute. reflexivity. Qed.

Lemma stage_keeps_package_order_witness :
  let b := examples.package "B" {[ "b_init" := 1%Z ]} in
  let a := examples.package "A" {[ "a_init" := 1%Z ]} in
  [mkInitFunc 1 "b_init" b; mkInitFunc 1 "a_init" a]
  = filter (λ f, stage f = 1%Z) (ranged (λ _, range_fwd) 0 [b; a]).
Proof.
  intros b a.
  apply (stage_keeps_package_order (λ _, range_fwd) [b; a] 1%Z
           [mkInitFunc 1 "b_init" b; mkInitFunc 1 "a_init" a]).
  vm_compute. left.
Defined.

(** The write step touches two paths at most, the file and its directory:
    every other path of the store holds afterwards what it held before, and
    the set of frozen paths is left alone. *)
Theorem ensureWrittenAt_frame (Dir : string → string) (contents path : string)
    (fs : disk.FS) (q : string) :
  q ≠ path → q ≠ Dir path →
  disk.nodes (ensureWrittenAt Dir contents path fs).1 !! q = disk.nodes fs !! q
  ∧ disk.frozen (ensureWrittenAt Dir contents path fs).1 = disk.frozen fs.
Proof.
  intros Hp Hd.
  unfold ensureWrittenAt, writeRequired, disk.ReadFile, disk.MkdirAll,
    disk.WriteFile, disk.setNode.
  destruct fs as [nodes frozen]; simpl. generalize dependent (Dir path). intros d Hd.
  disk_cases.
Qed.

Lemma ensureWrittenAt_frame_witness :
  let fs := disk.mkFS {[ "src/main.c" := disk.File "int x;" true ]} ∅ in
  disk.nodes (ensureWrittenAt (λ _, "src") "void" "src/t-sysinit-app.c" fs).1
    !! "src/main.c" = Some (disk.File "int x;" true).
Proof.
  intros fs.
  destruct (ensureWrittenAt_frame (λ _, "src") "void" "src/t-sysinit-app.c" fs
              "src/main.c") as [-> _]; [done|done|reflexivity].
Defined.

(** A file that exists and cannot be read is not written over: the write step
    returns the error of the read and leaves the store as it is. *)
Theorem ensureWrittenAt_read_error (Dir : string → string) (contents path : string)
    (fs : disk.FS) (e : disk.Errno) :
  disk.ReadFile fs path = inl e → e ≠ disk.ENOENT →
  ensureWrittenAt Dir contents path fs = (fs, Some (FsError e)).
Proof.
  intros Hr He. unfold ensureWrittenAt, writeRequired. rewrite Hr.
  by destruct e.
Qed.

Lemma ensureWrittenAt_read_error_witness :
  let fs := disk.mkFS {[ "src/t-sysinit-app.c" := disk.File "old" false ]} ∅ in
  ensureWrittenAt (λ _, "src") "void" "src/t-sysinit-app.c" fs
  = (fs, Some (FsError disk.EACCES)).
Proof.
  intros fs.
  apply (ensureWrittenAt_read_error (λ _, "src") "void" "src/t-sysinit-app.c" fs
           disk.EACCES); [reflexivity|discriminate].
Defined.

(** ** Further properties of the syscfg listing *)

Lemma sort_Strings_unique (l k : list string) :
  l ≡ₚ k → sort_Strings l = sort_Strings k.
Proof. apply (merge_sort_unique String.le). Qed.

(** The settings of a package are listed by name alone: the listing and the
    yaml text of a package are the same for two lists of entries that have
    the same names, in whatever order. *)
Theorem pkg_listing_by_names (pkgName : string) (cfg : cli.Cfg)
    (entries entries' : list cli.CfgEntry) (out : list string) (w : string) :
  cli.Name <$> entries ≡ₚ cli.Name <$> entries' →
  cli.printPkgCfg pkgName cfg entries out = cli.printPkgCfg pkgName cfg entries' out
  ∧ cli.yamlPkgCfg w pkgName cfg entries = cli.yamlPkgCfg w pkgName cfg entries'.
Proof.
  intros Hp. unfold cli.printPkgCfg, cli.yamlPkgCfg, cli.settingNames.
  by rewrite (sort_Strings_unique _ _ Hp).
Qed.

Lemma pkg_listing_by_names_witness :
  cli.yamlPkgCfg "" "sys/log" examples.sampleCfg
    [cli.mkEntry "LOG_LEVEL" "" "" []; cli.mkEntry "LOG_CLI" "" "" []]
  = cli.yamlPkgCfg "" "sys/log" examples.sampleCfg
      [cli.mkEntry "LOG_CLI" "other" "9" []; cli.mkEntry "LOG_LEVEL" "other" "9" []].
Proof.
  apply (pkg_listing_by_names "sys/log" examples.sampleCfg
           [cli.mkEntry "LOG_LEVEL" "" "" []; cli.mkEntry "LOG_CLI" "" "" []]
           [cli.mkEntry "LOG_CLI" "other" "9" []; cli.mkEntry "LOG_LEVEL" "other" "9" []]
           [] "").
  simpl. apply Permutation_swap.
Defined.

Lemma groupsOf_order_independent (o1 o2 : RangeOrder string cli.CfgEntry)
    (cfg : cli.Cfg) :
  valid_order o1 → valid_order o2 →
  groupsOf (cli.EntriesByPkg o1 cfg) = groupsOf (cli.EntriesByPkg o2 cfg).
Proof.
  intros Hv1 Hv2.
  assert (Hperm : (o1 (cli.Settings cfg)).*2 ≡ₚ (o2 (cli.Settings cfg)).*2)
    by (by rewrite (Hv1 _), (Hv2 _)).
  assert (Hent : ∀ n, cli.entriesOf (cli.EntriesByPkg o1 cfg) n
                      ≡ₚ cli.entriesOf (cli.EntriesByPkg o2 cfg) n).
  { intros n. unfold cli.entriesOf. rewrite !EntriesByPkg_lookup.
    assert (Hf : filter (λ e, cli.originName e = n) (o1 (cli.Settings cfg)).*2
                 ≡ₚ filter (λ e, cli.originName e = n) (o2 (cli.Settings cfg)).*2)
      by (by rewrite Hperm).
    destruct (filter _ (o1 _).*2), (filter _ (o2 _).*2); done. }
  assert (Hkeys : cli.sortedPkgNames (cli.EntriesByPkg o1 cfg)
                  = cli.sortedPkgNames (cli.EntriesByPkg o2 cfg)).
  { unfold cli.sortedPkgNames. apply sort_Strings_unique.
    apply NoDup_Permutation; [apply NoDup_fst_map_to_list..|].
    intros n. rewrite !list_elem_of_fmap.
    assert (Hsome : is_Some (cli.EntriesByPkg o1 cfg !! n)
                    ↔ is_Some (cli.EntriesByPkg o2 cfg !! n)).
    { specialize (Hent n). unfold cli.entriesOf in Hent.
      rewrite !EntriesByPkg_lookup in Hent |- *.
      destruct (filter _ (o1 _).*2) eqn:H1, (filter _ (o2 _).*2) eqn:H2; simpl in *.
      - done.
      - by apply Permutation_nil_cons in Hent.
      - symmetry in Hent. by apply Permutation_nil_cons in Hent.
      - split; eauto. }
    split.
    - intros ([k v] & -> & Hin). apply elem_of_map_to_list in Hin.
      destruct (proj1 Hsome (mk_is_Some _ _ Hin)) as [v' Hv'].
      exists (k, v'). split; [done|]. by apply elem_of_map_to_list.
    - intros ([k v] & -> & Hin). apply elem_of_map_to_list in Hin.
      destruct (proj2 Hsome (mk_is_Some _ _ Hin)) as [v' Hv'].
      exists (k, v'). split; [done|]. by apply elem_of_map_to_list. }
  unfold groupsOf. rewrite Hkeys. apply list_fmap_ext. intros i n _. simpl.
  f_equal. unfold cli.settingNames. apply sort_Strings_unique.
  by apply fmap_Permutation.
Qed.

(** The listing and the yaml text do not depend on the order in which the
    settings are visited when they are grouped: the sorts of the package
    names and of the setting names settle the order of both outputs. *)
Theorem cfg_outputs_order_independent (o1 o2 : RangeOrder string cli.CfgEntry)
    (targetName : string) (cfg : cli.Cfg) (out : list string) :
  valid_order o1 → valid_order o2 →
  cli.printCfg o1 targetName cfg out = cli.printCfg o2 targetName cfg out
  ∧ cli.yamlCfg o1 cfg out = cli.yamlCfg o2 cfg out.
Proof.
  intros Hv1 Hv2. unfold cli.printCfg, cli.yamlCfg.
  rewrite !printPkgs_spec, !yamlPkgs_spec.
  change (groupsFor (cli.EntriesByPkg o1 cfg)
            (cli.sortedPkgNames (cli.EntriesByPkg o1 cfg)))
    with (groupsOf (cli.EntriesByPkg o1 cfg)).
  change (groupsFor (cli.EntriesByPkg o2 cfg)
            (cli.sortedPkgNames (cli.EntriesByPkg o2 cfg)))
    with (groupsOf (cli.EntriesByPkg o2 cfg)).
  by rewrite (groupsOf_order_independent o1 o2 cfg Hv1 Hv2).
Qed.

Lemma cfg_outputs_order_independent_witness :
  cli.yamlCfg range_fwd examples.sampleCfg [] = cli.yamlCfg range_rev examples.sampleCfg [].
Proof.
  apply (cfg_outputs_order_independent range_fwd range_rev "t" examples.sampleCfg []).
  - apply valid_range_fwd.
  - apply valid_range_rev.
Defined.


(** ** The dependencies of a package *)

(** After [AddDep] of a dependency, [HasDep] finds it, and it finds exactly
    what it found before and the dependencies that render as the added one:
    dependencies are told apart by their text only. *)
Theorem HasDep_AddDep {Dependency : Type} (String_ : Dependency → string)
    (deps : list Dependency) (dep searchDep : Dependency) :
  pkgdeps.HasDep String_ (pkgdeps.AddDep deps dep) dep = true
  ∧ (pkgdeps.HasDep String_ (pkgdeps.AddDep deps dep) searchDep = true ↔
     pkgdeps.HasDep String_ deps searchDep = true
     ∨ String_ dep = String_ searchDep).
Proof.
  assert (Hiff : ∀ d, pkgdeps.HasDep String_ (pkgdeps.AddDep deps dep) d = true ↔
                      pkgdeps.HasDep String_ deps d = true ∨ String_ dep = String_ d).
  { intros d. unfold pkgdeps.AddDep. induction deps as [|x deps IH]; simpl.
    - case_decide as Hd; [by split; [right|]|].
      split; [done|]. by intros [?|?].
    - case_decide as Hd; [by split; [left|]|]. apply IH. }
  split; [|apply Hiff]. apply Hiff. by right.
Qed.

(** ** The target commands *)

Lemma foldl_buffer (l : list string) (buffer : string) :
  foldl (λ buffer f, (buffer +:+ f) +:+ " ") buffer l
  = buffer +:+ concat_str ((λ f, f +:+ " ") <$> l).
Proof.
  revert buffer. induction l as [|f l IH]; intros buffer; simpl.
  - by rewrite str_app_nil_r.
  - rewrite IH. by rewrite !str_app_assoc.
Qed.

(** [pkgVarSliceString] renders the texts of the sequence sorted, each
    followed by a blank: two vipers that hold the same texts under the key,
    in whatever order, give the same text, and a key that holds no sequence
    gives the empty text. *)
Theorem pkgVarSliceString_sorted (v v' : gmap string targetcmd.Stored) (key : string) :
  targetcmd.GetStringSlice v key ≡ₚ targetcmd.GetStringSlice v' key →
  targetcmd.pkgVarSliceString v key = targetcmd.pkgVarSliceString v' key
  ∧ targetcmd.pkgVarSliceString v key
    = concat_str ((λ f, f +:+ " ") <$> sort_Strings (targetcmd.GetStringSlice v key))
  ∧ (targetcmd.GetStringSlice v key = [] → targetcmd.pkgVarSliceString v key = "").
Proof.
  intros Hp. unfold targetcmd.pkgVarSliceString.
  rewrite !foldl_buffer, !str_app_nil_l.
  split; [by rewrite (sort_Strings_unique _ _ Hp)|]. split; [done|].
  intros ->. reflexivity.
Qed.

Lemma pkgVarSliceString_sorted_witness :
  targetcmd.pkgVarSliceString {[ "pkg.cflags" := targetcmd.Slice ["-Wall"; "-DNDEBUG"] ]}
    "pkg.cflags"
  = targetcmd.pkgVarSliceString {[ "pkg.cflags" := targetcmd.Slice ["-DNDEBUG"; "-Wall"] ]}
      "pkg.cflags".
Proof.
  apply (pkgVarSliceString_sorted
           {[ "pkg.cflags" := targetcmd.Slice ["-Wall"; "-DNDEBUG"] ]}
           {[ "pkg.cflags" := targetcmd.Slice ["-DNDEBUG"; "-Wall"] ]} "pkg.cflags").
  apply Permutation_swap.
Defined.

(** A target directory that can be listed holds user files exactly when its
    listing has an entry other than [.], [..], the package descriptor and the
    target file; a directory that cannot be listed is reported with the error
    and without user files. *)
Theorem targetContainsUserFiles_iff (TARGET_FILENAME : string) (dir : tree.Node) :
  (∀ contents, tree.ReadDir dir = inr contents →
     (targetcmd.targetContainsUserFiles TARGET_FILENAME dir).2 = None
     ∧ ((targetcmd.targetContainsUserFiles TARGET_FILENAME dir).1 = true ↔
        ∃ name, name ∈ contents.*1
                ∧ name ∉ [ "."; ".."; pkg.PACKAGE_FILE_NAME; TARGET_FILENAME ]))
  ∧ (∀ err, tree.ReadDir dir = inl err →
       targetcmd.targetContainsUserFiles TARGET_FILENAME dir = (false, Some err)).
Proof.
  unfold targetcmd.targetContainsUserFiles. split.
  - intros contents ->. split; [done|]. simpl.
    induction contents as [|[name n] contents IH]; simpl.
    + split; [done|]. by intros (? & ?%elem_of_nil & _).
    + case_bool_decide as Hname.
      * split; [|done]. intros _. exists name. split; [left|].
        destruct Hname as (H1 & H2 & H3 & H4).
        rewrite !not_elem_of_cons. repeat split; try done. apply not_elem_of_nil.
      * rewrite IH. split.
        -- intros (x & Hin & Hx). exists x. split; [by right|done].
        -- intros (x & Hin & Hx). apply elem_of_cons in Hin as [->|Hin]; [|eauto].
           exfalso. apply Hname. rewrite !not_elem_of_cons in Hx.
           by destruct Hx as (H1 & H2 & H3 & H4 & _).
  - by intros err ->.
Qed.
